(** * Rule-based procedural content generation: cellular automata and drunk agent

    A shallow embedding of [src/RuleBasedPCG.cpp] and the properties of its
    two generators, [cellularAutomata] and [drunkAgent], of [printMap] and
    of the driver [main].

    Conventions of the embedding.
    - [int] values are integers of [Z]; the bit operations of the source
      ([&], [|], [<<], [>>]) are [Z.land], [Z.lor], [Z.shiftl], [Z.shiftr],
      which agree with two's complement [int] on every value an [int] holds.
    - The two [int] values of [cellularAutomata] that grow with the radius,
      [count] and [total], are computed as a 32-bit two's complement [int]
      computes them, with the wrap-around [wrap_int] written out: the
      window has more than [INT_MAX] coordinates from [R = 23170].  (Signed
      overflow is undefined in C++; the wrap-around is what the usual
      compilers and machines do.)  Sums of a coordinate and an offset are
      written in [Z]: such a sum is outside the grid whether it wraps or
      not.  A loop [for (x = lo; x <= hi; ++x)] is the loop over
      [lo, ..., hi], which is what the source does for [hi < INT_MAX]; the
      statements that depend on [count] or [total] assume that the window
      size [(2R+1)^2] fits an [int].
    - [double] values are IEEE 754 binary64 numbers, given by the
      specification [spec_float] of the standard library with precision 53
      and maximal exponent 1024.
    - [Map] is [std::vector<std::vector<int>>]: a list of rows.  Indexing a
      vector out of its range is undefined in C++; here [get] and [set]
      return [None] there, and every function that indexes the map runs in
      the [option] monad.
    - The random source of [drunkAgent] is a state of an arbitrary type
      [rng] with the two samplers of the source, [chance] (a [double]) and
      [dirDist] (an [int]); each returns its draw and the next state.
    - [std::cout] is the text written so far, a [string]. *)

From Stdlib Require Import ZArith Bool Lia.
From Stdlib Require Import Floats.SpecFloat.
From Stdlib Require Import String Ascii.
From stdpp Require Import base option list list_numbers strings pretty.

Local Open Scope Z_scope.

(** ** [double] *)

Module Double.

Definition prec : Z := 53.
Definition emax : Z := 1024.

Definition double : Type := spec_float.

(** Conversion of an [int]: exact, every [int] fits in 53 bits. *)
Definition of_int (z : Z) : double := binary_normalize prec emax z 0 false.

Definition add (x y : double) : double := SFadd prec emax x y.
Definition div (x y : double) : double := SFdiv prec emax x y.

(** [x < y] and [x >= y]; both are [false] when an operand is a NaN. *)
Definition ltb (x y : double) : bool := SFltb x y.
Definition geb (x y : double) : bool := SFleb y x.

Definition zero : double := S754_zero false.
Definition one : double := S754_finite false 4503599627370496 (-52).

(** The literals [0.2], [0.1] and [0.5] of the source. *)
Definition lit_0_2 : double := S754_finite false 7205759403792794 (-55).
Definition lit_0_1 : double := S754_finite false 7205759403792794 (-56).
Definition lit_0_5 : double := S754_finite false 4503599627370496 (-53).

End Double.

Abbreviation double := Double.double.

(** ** [int]

    The range of a 32-bit [int] and the value an arithmetic result has
    there in two's complement. *)

Definition INT_MIN : Z := -2147483648.
Definition INT_MAX : Z := 2147483647.

Definition wrap_int (z : Z) : Z := (z + 2147483648) mod 4294967296 - 2147483648.

(** [a + b] and [a * b] on [int]. *)
Definition int_add (a b : Z) : Z := wrap_int (a + b).
Definition int_mul (a b : Z) : Z := wrap_int (a * b).

(** ** Loops

    [for (int x = lo; x < hi; ++x) body] over a state [S], where the body
    may fail. *)

Fixpoint for_loop {S : Type} (n : nat) (lo : Z) (body : Z → S → option S)
    (s : S) : option S :=
  match n with
  | O => Some s
  | Datatypes.S k => body lo s ≫= for_loop k (lo + 1) body
  end.

Definition for_range {S : Type} (lo hi : Z) (body : Z → S → option S)
    (s : S) : option S :=
  for_loop (Z.to_nat (hi - lo)) lo body s.

(** ** The map *)

Abbreviation Map := (list (list Z)).

(** [m[i][j]] as an r-value. *)
Definition get (m : Map) (i j : Z) : option Z :=
  if (0 <=? i) && (0 <=? j) then
    row ← m !! Z.to_nat i; row !! Z.to_nat j
  else None.

(** [m[i][j] = v]. *)
Definition set (m : Map) (i j v : Z) : option Map :=
  if (0 <=? i) && (0 <=? j) then
    row ← m !! Z.to_nat i;
    if decide (Z.to_nat j < length row)%nat
    then Some (<[Z.to_nat i := <[Z.to_nat j := v]> row]> m)
    else None
  else None.

(** The guard [i >= 0 && i < H && j >= 0 && j < W] that precedes every
    access. *)
Definition in_grid (W H i j : Z) : bool :=
  (0 <=? i) && (i <? H) && (0 <=? j) && (j <? W).

(** A map of [H] rows of [W] cells. *)
Definition wf_grid (W H : Z) (m : Map) : Prop :=
  Z.of_nat (length m) = H ∧ Forall (λ row, Z.of_nat (length row) = W) m.

(** All cells are 0 or 1. *)
Definition binary_grid (m : Map) : Prop :=
  Forall (Forall (λ x, x = 0 ∨ x = 1)) m.

Definition empty_grid (W H : Z) : Map :=
  replicate (Z.to_nat H) (replicate (Z.to_nat W) 0).

(** ** [cellularAutomata] *)

(** The body of the two window loops: one neighbour read, added to the
    [int] [count]. *)
Definition count_cell (m : Map) (W H ni nj count : Z) : option Z :=
  if in_grid W H ni nj then
    x ← get m ni nj; Some (int_add count (Z.land x 1))
  else Some (int_add count 1).

(** The loops over [dx] and [dy], from [count = 0]. *)
Definition neighbor_count (m : Map) (W H R i j : Z) : option Z :=
  for_range (- R) (R + 1)
    (λ dx count,
       for_range (- R) (R + 1)
         (λ dy count, count_cell m W H (i + dx) (j + dy) count) count)
    0.

(** [newVal] from [count]; [total] is an [int], the quotient a [double]. *)
Definition new_value (R : Z) (U : double) (count : Z) : Z :=
  let total := int_mul (int_add (int_mul 2 R) 1) (int_add (int_mul 2 R) 1) in
  let ratio := Double.div (Double.of_int count) (Double.of_int total) in
  if Double.geb ratio U then 1 else 0.

(** The body of the first pass at cell [(i, j)]. *)
Definition ca_update (W H R : Z) (U : double) (i j : Z) (m : Map) : option Map :=
  count ← neighbor_count m W H R i j;
  x ← get m i j;
  set m i j (Z.lor x (Z.shiftl (new_value R U count) 1)).

Definition ca_first_pass (W H R : Z) (U : double) (m : Map) : option Map :=
  for_range 0 H (λ i m, for_range 0 W (λ j m, ca_update W H R U i j m) m) m.

(** The body of the second pass at cell [(i, j)]. *)
Definition ca_commit (i j : Z) (m : Map) : option Map :=
  x ← get m i j;
  set m i j (Z.land (Z.shiftr x 1) 1).

Definition ca_second_pass (W H : Z) (m : Map) : option Map :=
  for_range 0 H (λ i m, for_range 0 W (λ j m, ca_commit i j m) m) m.

Definition cellularAutomata (currentMap : Map) (W H R : Z) (U : double)
    : option Map :=
  m ← ca_first_pass W H R U currentMap;
  ca_second_pass W H m.

(** *** The rule in the words of the specification *)

(** The window of half-width [R] centred at [(i, j)]. *)
Definition window (R i j : Z) : list (Z * Z) :=
  dx ← seqZ (- R) (2 * R + 1);
  (λ dy, (i + dx, j + dy)) <$> seqZ (- R) (2 * R + 1).

(** A window coordinate counts when it is outside the grid or occupied. *)
Definition counts_as_occupied (m : Map) (W H : Z) (p : Z * Z) : bool :=
  negb (in_grid W H p.1 p.2) || bool_decide (get m p.1 p.2 = Some 1).

Definition window_count (m : Map) (W H R i j : Z) : Z :=
  Z.of_nat (length (filter (λ p, counts_as_occupied m W H p = true)
                      (window R i j))).

(** The window coordinates inside and outside the grid. *)
Definition window_inside (W H R i j : Z) : Z :=
  Z.of_nat (length (filter (λ p, in_grid W H p.1 p.2 = true) (window R i j))).

Definition window_outside (W H R i j : Z) : Z :=
  Z.of_nat (length (filter (λ p, in_grid W H p.1 p.2 = false) (window R i j))).

(** The same with bit 0 of a cell as its occupancy. *)
Definition counts_bit0 (m : Map) (W H : Z) (p : Z * Z) : Z :=
  if in_grid W H p.1 p.2 then Z.land (default 0 (get m p.1 p.2)) 1 else 1.

(** What the window loops leave in [count]: the sum of these over the
    window, each addition being one of [int]. *)
Definition bit0_count (m : Map) (W H R i j : Z) : Z :=
  foldl (λ c p, int_add c (counts_bit0 m W H p)) 0 (window R i j).

(** The same sum in [Z]. *)
Definition bit0_sum (m : Map) (W H R i j : Z) : Z :=
  foldl (λ c p, c + counts_bit0 m W H p) 0 (window R i j).

(** *** The cells during and after the two passes *)

(** The input cell. *)
Definition cell_in (m : Map) (a b : Z) : Z := default 0 (get m a b).

(** The cell after the first pass: the new value staged in bit 1. *)
Definition cell_staged (m : Map) (W H R : Z) (U : double) (a b : Z) : Z :=
  Z.lor (cell_in m a b) (Z.shiftl (new_value R U (bit0_count m W H R a b)) 1).

(** The cell after the second pass. *)
Definition cell_out (m : Map) (W H R : Z) (U : double) (a b : Z) : Z :=
  Z.land (Z.shiftr (cell_staged m W H R U a b) 1) 1.

(** [(a, b)] comes before [(i, j)] in row-major order. *)
Definition visited (i j a b : Z) : bool := (a <? i) || ((a =? i) && (b <? j)).

(** The state of the map while a pass is at [(i, j)]: the cells before it
    hold [after], the others still hold [before]. *)
Definition pass_state (W H : Z) (before after : Z → Z → Z) (i j : Z)
    (m : Map) : Prop :=
  wf_grid W H m ∧
  ∀ a b, 0 ≤ a < H → 0 ≤ b < W →
         get m a b = Some (if visited i j a b then after a b else before a b).

(** ** [drunkAgent] *)

(** The random source: [std::mt19937] behind the two distributions of the
    source.  [chance] is [uniform_real_distribution<double>(0.0, 1.0)], a
    draw in [0, 1); [dirDist] is [uniform_int_distribution<int>(0, 3)]. *)
Class RandomSource (rng : Type) := {
  chance : rng → double * rng;
  dirDist : rng → Z * rng;
  chance_range g :
    Double.geb (chance g).1 Double.zero = true ∧
    Double.ltb (chance g).1 Double.one = true;
  dirDist_range g : 0 ≤ (dirDist g).1 ≤ 3
}.

(** The variables of a call: the map under construction, the position of
    the agent (the caller's, through the references), the heading, the two
    adaptive probabilities (parameters passed by value and updated in
    place) and the random source. *)
Record agent (rng : Type) := Agent {
  newMap : Map;
  agentX : Z;
  agentY : Z;
  dx : Z;
  dy : Z;
  probGenerateRoom : double;
  probChangeDirection : double;
  gen : rng
}.
Arguments Agent {rng}.
Arguments newMap {rng}.
Arguments agentX {rng}.
Arguments agentY {rng}.
Arguments dx {rng}.
Arguments dy {rng}.
Arguments probGenerateRoom {rng}.
Arguments probChangeDirection {rng}.
Arguments gen {rng}.

(** [dx = (dir == 0) ? -1 : (dir == 1) ? 1 : 0] and
    [dy = (dir == 2) ? -1 : (dir == 3) ? 1 : 0]. *)
Definition new_heading (dir : Z) : Z * Z :=
  (if dir =? 0 then -1 else if dir =? 1 then 1 else 0,
   if dir =? 2 then -1 else if dir =? 3 then 1 else 0).

(** [if (x >= 0 && x < H && y >= 0 && y < W) m[x][y] = 1]. *)
Definition mark (W H : Z) (m : Map) (x y : Z) : option Map :=
  if in_grid W H x y then set m x y 1 else Some m.

(** One iteration of the inner loop. *)
Definition inner_step {rng : Type} {RS : RandomSource rng} (W H : Z) (probIncreaseChange : double)
    (s : agent rng) : option (agent rng) :=
  m ← mark W H (newMap s) (agentX s) (agentY s);
  let newX := agentX s + dx s in
  let newY := agentY s + dy s in
  if in_grid W H newX newY then
    let (c, g1) := chance (gen s) in
    if Double.ltb c (probChangeDirection s) then
      let (dir, g2) := dirDist g1 in
      Some (Agent m newX newY (new_heading dir).1 (new_heading dir).2
              (probGenerateRoom s) Double.lit_0_2 g2)
    else
      Some (Agent m newX newY (dx s) (dy s)
              (probGenerateRoom s)
              (Double.add (probChangeDirection s) probIncreaseChange) g1)
  else
    let (dir, g1) := dirDist (gen s) in
    Some (Agent m (agentX s) (agentY s) (new_heading dir).1 (new_heading dir).2
            (probGenerateRoom s) (probChangeDirection s) g1).

(** The two loops that draw a room around [(x, y)].  [roomSizeX / 2] is the
    division of [int], which truncates. *)
Definition stamp_room (W H roomSizeX roomSizeY : Z) (m : Map) (x y : Z)
    : option Map :=
  let halfX := roomSizeX ÷ 2 in
  let halfY := roomSizeY ÷ 2 in
  for_range (- halfX) (halfX + 1)
    (λ dxRoom m,
       for_range (- halfY) (halfY + 1)
         (λ dyRoom m, mark W H m (x + dxRoom) (y + dyRoom)) m)
    m.

(** The room decision that ends a walk. *)
Definition room_decision {rng : Type} {RS : RandomSource rng} (W H roomSizeX roomSizeY : Z)
    (probIncreaseRoom : double) (s : agent rng) : option (agent rng) :=
  let (c, g1) := chance (gen s) in
  if Double.ltb c (probGenerateRoom s) then
    m ← stamp_room W H roomSizeX roomSizeY (newMap s) (agentX s) (agentY s);
    Some (Agent m (agentX s) (agentY s) (dx s) (dy s)
            Double.lit_0_1 (probChangeDirection s) g1)
  else
    Some (Agent (newMap s) (agentX s) (agentY s) (dx s) (dy s)
            (Double.add (probGenerateRoom s) probIncreaseRoom)
            (probChangeDirection s) g1).

(** The inner loop: [I] steps. *)
Definition steps {rng : Type} {RS : RandomSource rng} (W H I : Z) (probIncreaseChange : double)
    (s : agent rng) : option (agent rng) :=
  for_range 0 I (λ _ s, inner_step W H probIncreaseChange s) s.

(** One iteration of the outer loop: [I] steps, then the room decision. *)
Definition walk {rng : Type} {RS : RandomSource rng} (W H I roomSizeX roomSizeY : Z)
    (probIncreaseRoom probIncreaseChange : double) (s : agent rng)
    : option (agent rng) :=
  s1 ← steps W H I probIncreaseChange s;
  room_decision W H roomSizeX roomSizeY probIncreaseRoom s1.

(** The outer loop: [J] walks. *)
Definition walks {rng : Type} {RS : RandomSource rng} (W H J I roomSizeX roomSizeY : Z)
    (probIncreaseRoom probIncreaseChange : double) (s : agent rng)
    : option (agent rng) :=
  for_range 0 J
    (λ _ s, walk W H I roomSizeX roomSizeY probIncreaseRoom probIncreaseChange s)
    s.

(** The variables at the start of a call; [seed] is the state of the
    generator the call builds from the clock. *)
Definition initial_agent {rng} (currentMap : Map)
    (probGenerateRoom probChangeDirection : double) (agentX agentY : Z)
    (seed : rng) : agent rng :=
  Agent currentMap agentX agentY 0 1 probGenerateRoom probChangeDirection seed.

(** What the caller observes at the end of a call: the returned map and the
    position left in the two references. *)
Definition outcome {rng} (s : agent rng) : Map * Z * Z :=
  (newMap s, agentX s, agentY s).

Definition drunkAgent {rng : Type} {RS : RandomSource rng} (currentMap : Map)
    (W H J I roomSizeX roomSizeY : Z)
    (probGenerateRoom probIncreaseRoom : double)
    (probChangeDirection probIncreaseChange : double)
    (agentX agentY : Z) (seed : rng) : option (Map * Z * Z) :=
  s ← walks W H J I roomSizeX roomSizeY probIncreaseRoom probIncreaseChange
        (initial_agent currentMap probGenerateRoom probChangeDirection
           agentX agentY seed);
  Some (outcome s).

(** The number of occupied cells of a map. *)
Definition occupied_count (m : Map) : Z :=
  Z.of_nat (length (filter (λ x, x ≠ 0) (concat m))).

(** A cell is occupied. *)
Definition occupied (m : Map) (a b : Z) : Prop := get m a b = Some 1.

(** *** Relations between the map before and after

    [painted P m m']: the cells that satisfy [P] hold 1 in [m'], the others
    are as in [m]. *)
Definition painted (P : Z → Z → Prop) (m m' : Map) : Prop :=
  ∀ a b, (P a b → get m' a b = Some 1) ∧ (¬ P a b → get m' a b = get m a b).

(** [grows m m']: every cell of [m'] is as in [m] or holds 1. *)
Definition grows (m m' : Map) : Prop :=
  ∀ a b, get m' a b = get m a b ∨ get m' a b = Some 1.

(** The cells that a room around [(x, y)] covers. *)
Definition in_room (W H roomSizeX roomSizeY x y a b : Z) : Prop :=
  in_grid W H a b = true ∧
  x - roomSizeX ÷ 2 ≤ a ≤ x + roomSizeX ÷ 2 ∧
  y - roomSizeY ÷ 2 ≤ b ≤ y + roomSizeY ÷ 2.

(** The four cardinal headings. *)
Definition cardinal_headings : list (Z * Z) := [(-1, 0); (1, 0); (0, -1); (0, 1)].

(** What holds of the variables of a call that started on the map [m0] at
    [(x0, y0)]: the map has its dimensions, it has only grown, and the agent
    is inside the grid if it started there. *)
Definition agent_inv {rng} (W H : Z) (m0 : Map) (x0 y0 : Z) (s : agent rng) : Prop :=
  wf_grid W H (newMap s) ∧ grows m0 (newMap s) ∧
  (in_grid W H x0 y0 = true → in_grid W H (agentX s) (agentY s) = true).

(** *** A sequence of calls

    The arguments of one call, apart from the map, the dimensions and the
    position, which the driver threads from call to call. *)
Record call (rng : Type) := Call {
  call_J : Z;
  call_I : Z;
  call_roomSizeX : Z;
  call_roomSizeY : Z;
  call_probGenerateRoom : double;
  call_probIncreaseRoom : double;
  call_probChangeDirection : double;
  call_probIncreaseChange : double;
  call_seed : rng
}.
Arguments Call {rng}.
Arguments call_J {rng}.
Arguments call_I {rng}.
Arguments call_roomSizeX {rng}.
Arguments call_roomSizeY {rng}.
Arguments call_probGenerateRoom {rng}.
Arguments call_probIncreaseRoom {rng}.
Arguments call_probChangeDirection {rng}.
Arguments call_probIncreaseChange {rng}.
Arguments call_seed {rng}.

Fixpoint drunkAgent_calls {rng : Type} {RS : RandomSource rng} (W H : Z) (cs : list (call rng))
    (m : Map) (x y : Z) : option (Map * Z * Z) :=
  match cs with
  | [] => Some (m, x, y)
  | c :: cs' =>
      r ← drunkAgent m W H (call_J c) (call_I c)
            (call_roomSizeX c) (call_roomSizeY c)
            (call_probGenerateRoom c) (call_probIncreaseRoom c)
            (call_probChangeDirection c) (call_probIncreaseChange c)
            x y (call_seed c);
      drunkAgent_calls W H cs' r.1.1 r.1.2 r.2
  end.

(** *** A scripted random source

    The state is the list of the draws to come, each a number [k]:
    [chance] returns [(k mod 4) / 4] and [dirDist] returns [k mod 4]; both
    return 0 when the list is exhausted. *)
Definition script_draw (g : list Z) : Z :=
  match g with k :: _ => k mod 4 | [] => 0 end.

Definition script_chance (g : list Z) : double * list Z :=
  (Double.div (Double.of_int (script_draw g)) (Double.of_int 4), tail g).

Definition script_dirDist (g : list Z) : Z * list Z := (script_draw g, tail g).

(** The draws of one walk in which every step turns: before each turn a
    [chance] draw of 0.0, then the [dirDist] draw; at the end the [chance]
    draw of 0.0 of the room decision. *)
Definition walk_draws (dirs : list Z) : list Z := (dirs ≫= λ d, [0; d]) ++ [0].

(** Five walks of ten steps along a path that never crosses itself: from
    (5, 10) right to (5, 18), down to (8, 18), left to (8, 1), up to (1, 1)
    and right to (1, 16). *)
Definition snake_draws : list Z :=
  walk_draws (replicate 7 3 ++ replicate 3 1) ++
  walk_draws (replicate 10 2) ++
  walk_draws (replicate 7 2 ++ replicate 3 0) ++
  walk_draws (replicate 4 0 ++ replicate 6 3) ++
  walk_draws (replicate 10 3).

(** The probabilities of the driver: 0.05 and 0.03. *)
Definition lit_0_05 : double := Double.div (Double.of_int 1) (Double.of_int 20).
Definition lit_0_03 : double := Double.div (Double.of_int 3) (Double.of_int 100).

(** ** Further definitions *)

(** A [double] that is [+0.0], positive and finite, or [+inf]. *)
Definition nonneg_double (x : double) : bool :=
  match x with
  | S754_zero false | S754_finite false _ _ | S754_infinity false => true
  | _ => false
  end.

(** *** [printMap] and [main]

    [std::cout] is the text written so far; [<<] appends to it, an [int] in
    decimal with a minus sign when negative ([pretty]), and [std::endl] is a
    line feed. *)
Definition endl : string := String (ascii_of_nat 10) "".

(** The inner loop of [printMap]: each cell, then a space. *)
Definition print_row (row : list Z) (out : string) : string :=
  foldl (λ out cell, out +:+ pretty cell +:+ " ") out row.

Definition printMap (map : Map) (out : string) : string :=
  let out := out +:+ "--- Current Map ---" +:+ endl in
  let out := foldl (λ out row, print_row row out +:+ endl) out map in
  out +:+ "-------------------" +:+ endl.

(** The configuration of [main]. *)
Definition mapRows : Z := 10.
Definition mapCols : Z := 20.
Definition numIterations : Z := 5.
Definition ca_R : Z := 1.
Definition ca_U : double := Double.lit_0_5.
Definition da_J : Z := 5.
Definition da_I : Z := 10.
Definition da_roomSizeX : Z := 5.
Definition da_roomSizeY : Z := 3.
Definition da_probGenerateRoom : double := Double.lit_0_1.
Definition da_probIncreaseRoom : double := lit_0_05.
Definition da_probChangeDirection : double := Double.lit_0_2.
Definition da_probIncreaseChange : double := lit_0_03.

(** The variables of [main] that the loop changes, and the text written. *)
Record simulation := Simulation {
  cout : string;
  myMap : Map;
  drunkAgentX : Z;
  drunkAgentY : Z
}.

(** One iteration of the loop of [main].  [seeds iteration] is the state of
    the generator that this call of [drunkAgent] builds from the clock. *)
Definition iteration_body {rng : Type} {RS : RandomSource rng} (seeds : Z → rng)
    (iteration : Z) (st : simulation) : option simulation :=
  let out := cout st +:+ endl +:+ "--- Iteration " +:+ pretty (iteration + 1)
             +:+ " ---" +:+ endl in
  m ← cellularAutomata (myMap st) mapCols mapRows ca_R ca_U;
  r ← drunkAgent m mapCols mapRows da_J da_I da_roomSizeX da_roomSizeY
        da_probGenerateRoom da_probIncreaseRoom
        da_probChangeDirection da_probIncreaseChange
        (drunkAgentX st) (drunkAgentY st) (seeds iteration);
  Some (Simulation (printMap r.1.1 out) r.1.1 r.1.2 r.2).

Definition main_loop {rng : Type} {RS : RandomSource rng} (seeds : Z → rng)
    (n : Z) (st : simulation) : option simulation :=
  for_range 0 n (iteration_body seeds) st.

(** [main]: the text written and the value returned. *)
Definition main {rng : Type} {RS : RandomSource rng} (seeds : Z → rng)
    : option (string * Z) :=
  let out := "--- CELLULAR AUTOMATA AND DRUNK AGENT SIMULATION ---" +:+ endl in
  let myMap := replicate (Z.to_nat mapRows) (replicate (Z.to_nat mapCols) 0) in
  let drunkAgentX := mapRows ÷ 2 in
  let drunkAgentY := mapCols ÷ 2 in
  let out := out +:+ endl +:+ "Initial map state:" +:+ endl in
  let out := printMap myMap out in
  st ← main_loop seeds numIterations
         (Simulation out myMap drunkAgentX drunkAgentY);
  Some (cout st +:+ endl +:+ "--- Simulation Finished ---" +:+ endl, 0).

(** The four corners of the map of the driver. *)
Definition corners_occupied (m : Map) : Prop :=
  occupied m 0 0 ∧ occupied m 0 (mapCols - 1) ∧
  occupied m (mapRows - 1) 0 ∧ occupied m (mapRows - 1) (mapCols - 1).

(** The characters of the text of a cell: a digit or a minus sign. *)
Definition is_digit (c : ascii) : bool :=
  (48 <=? nat_of_ascii c)%nat && (nat_of_ascii c <=? 57)%nat.

Definition is_cell_char (c : ascii) : bool :=
  is_digit c || (nat_of_ascii c =? 45)%nat.

Fixpoint all_chars (P : ascii → bool) (s : string) : bool :=
  match s with
  | EmptyString => true
  | String c s' => P c && all_chars P s'
  end.

(** The text of a row and of the rows of a map, from left to right. *)
Definition row_text (row : list Z) : string :=
  foldr (λ cell s, pretty cell +:+ " " +:+ s) "" row.

Definition rows_text (m : Map) : string :=
  foldr (λ row s, row_text row +:+ endl +:+ s) "" m.

(** ** Reasoning about loops *)

Section loops.
Context {S : Type}.
Implicit Types (body : Z → S → option S) (s : S).

(** The invariant rule: an invariant [P x] of the state before iteration
    [x] that every iteration carries to [x + 1] holds at the exit, and the
    loop does not fail. *)
Lemma for_loop_inv (P : Z → S → Prop) n lo body s :
  P lo s →
  (∀ x t, lo ≤ x < lo + Z.of_nat n → P x t →
          ∃ t', body x t = Some t' ∧ P (x + 1) t') →
  ∃ s', for_loop n lo body s = Some s' ∧ P (lo + Z.of_nat n) s'.
Proof.
  revert lo s. induction n as [|n IH]; intros lo s Hs Hbody.
  - exists s. split; [done|]. by replace (lo + Z.of_nat 0) with lo by lia.
  - destruct (Hbody lo s) as (t & Ht & HP); [lia|done|].
    destruct (IH (lo + 1) t) as (s' & Hs' & HP'); [done| |].
    + intros x u Hx. apply Hbody. lia.
    + exists s'. simpl. rewrite Ht. simpl. split; [done|].
      by replace (lo + Z.of_nat (Datatypes.S n)) with (lo + 1 + Z.of_nat n) by lia.
Qed.

Lemma for_range_inv (P : Z → S → Prop) lo hi body s :
  lo ≤ hi →
  P lo s →
  (∀ x t, lo ≤ x < hi → P x t → ∃ t', body x t = Some t' ∧ P (x + 1) t') →
  ∃ s', for_range lo hi body s = Some s' ∧ P hi s'.
Proof.
  intros Hle Hs Hbody. unfold for_range.
  destruct (for_loop_inv P (Z.to_nat (hi - lo)) lo body s) as (s' & Hs' & HP).
  - done.
  - intros x t Hx. apply Hbody. lia.
  - exists s'. split; [done|].
    by replace (lo + Z.of_nat (Z.to_nat (hi - lo))) with hi in HP by lia.
Qed.

(** A loop whose bound is not above its start runs no iteration. *)
Lemma for_range_empty lo hi body s : hi ≤ lo → for_range lo hi body s = Some s.
Proof. intros Hle. unfold for_range. by replace (Z.to_nat (hi - lo)) with O by lia. Qed.

(** A state property that every iteration keeps, whatever the index. *)
Lemma for_range_preserves (P : S → Prop) lo hi body s :
  P s →
  (∀ x t, lo ≤ x < hi → P t → ∃ t', body x t = Some t' ∧ P t') →
  ∃ s', for_range lo hi body s = Some s' ∧ P s'.
Proof.
  intros Hs Hbody. destruct (Z.le_gt_cases lo hi) as [Hle|Hgt].
  - by apply (for_range_inv (λ _, P)).
  - exists s. split; [|done]. apply for_range_empty. lia.
Qed.

(** A loop with a body that never fails is a left fold over its indices. *)
Lemma for_loop_foldl (f : S → Z → S) n lo body s :
  (∀ x t, lo ≤ x < lo + Z.of_nat n → body x t = Some (f t x)) →
  for_loop n lo body s = Some (foldl f s (seqZ lo (Z.of_nat n))).
Proof.
  revert lo s. induction n as [|n IH]; intros lo s Hbody; [done|].
  simpl. rewrite Hbody by lia. simpl.
  rewrite seqZ_cons by lia. simpl.
  replace (Z.pred (Z.of_nat (Datatypes.S n))) with (Z.of_nat n) by lia.
  apply IH. intros x t Hx. apply Hbody. lia.
Qed.

(** Splitting a loop at an intermediate index. *)
Lemma for_loop_add n k lo body s :
  for_loop (n + k) lo body s
  = for_loop n lo body s ≫= for_loop k (lo + Z.of_nat n) body.
Proof.
  revert lo s. induction n as [|n IH]; intros lo s.
  - simpl. by replace (lo + Z.of_nat 0) with lo by lia.
  - simpl. destruct (body lo s) as [t|]; [|done]. simpl.
    rewrite IH. by replace (lo + 1 + Z.of_nat n) with (lo + Z.of_nat (Datatypes.S n)) by lia.
Qed.
End loops.

(** ** Reasoning about the map *)

Lemma in_grid_spec W H i j : in_grid W H i j = true ↔ 0 ≤ i < H ∧ 0 ≤ j < W.
Proof. unfold in_grid. rewrite !andb_true_iff. lia. Qed.

Lemma in_grid_false W H i j :
  in_grid W H i j = false ↔ ¬ (0 ≤ i < H ∧ 0 ≤ j < W).
Proof. rewrite <- in_grid_spec. by destruct (in_grid W H i j). Qed.

Lemma wf_grid_row W H m i row :
  wf_grid W H m → m !! i = Some row → Z.of_nat (length row) = W.
Proof.
  intros [_ Hrows] Hi. rewrite Forall_forall in Hrows.
  apply Hrows. by eapply list_elem_of_lookup_2.
Qed.

Lemma wf_grid_get W H m i j :
  wf_grid W H m → 0 ≤ i < H → 0 ≤ j < W → is_Some (get m i j).
Proof.
  intros Hwf Hi Hj. unfold get.
  replace ((0 <=? i) && (0 <=? j)) with true by (symmetry; rewrite andb_true_iff; lia).
  destruct (lookup_lt_is_Some_2 m (Z.to_nat i)) as [row Hrow].
  { destruct Hwf as [Hlen _]. lia. }
  rewrite Hrow. simpl. apply lookup_lt_is_Some_2.
  apply (wf_grid_row _ _ _ _ _ Hwf) in Hrow. lia.
Qed.

Lemma wf_grid_set W H m i j v :
  wf_grid W H m → 0 ≤ i < H → 0 ≤ j < W →
  ∃ m', set m i j v = Some m' ∧ wf_grid W H m'.
Proof.
  intros Hwf Hi Hj. unfold set.
  replace ((0 <=? i) && (0 <=? j)) with true by (symmetry; rewrite andb_true_iff; lia).
  destruct (lookup_lt_is_Some_2 m (Z.to_nat i)) as [row Hrow].
  { destruct Hwf as [Hlen _]. lia. }
  rewrite Hrow. simpl.
  pose proof (wf_grid_row _ _ _ _ _ Hwf Hrow) as Hlen.
  destruct (decide (Z.to_nat j < length row)%nat) as [_|Hn]; [|lia].
  eexists. split; [done|]. destruct Hwf as [HH Hrows]. split.
  - by rewrite length_insert.
  - apply Forall_insert; [done|]. by rewrite length_insert.
Qed.

(** Reading after a write. *)
Lemma get_set m i j v m' a b :
  set m i j v = Some m' →
  get m' a b = if decide (a = i ∧ b = j) then Some v else get m a b.
Proof.
  unfold set, get. intros Hset.
  destruct ((0 <=? i) && (0 <=? j)) eqn:Hij; [|done].
  apply andb_true_iff in Hij as [Hi Hj].
  destruct (m !! Z.to_nat i) as [row|] eqn:Hrow; [|done]. simpl in Hset.
  destruct (decide (Z.to_nat j < length row)%nat) as [Hlt|]; [|done].
  injection Hset as <-.
  destruct ((0 <=? a) && (0 <=? b)) eqn:Hab.
  - apply andb_true_iff in Hab as [Ha Hb].
    destruct (decide (Z.to_nat a = Z.to_nat i)) as [Hai|Hai].
    + rewrite Hai, list_lookup_insert_eq by (by eapply lookup_lt_Some).
      simpl. destruct (decide (Z.to_nat b = Z.to_nat j)) as [Hbj|Hbj].
      * rewrite Hbj, list_lookup_insert_eq by done.
        destruct (decide (a = i ∧ b = j)) as [|Hn]; [done|]. lia.
      * rewrite list_lookup_insert_ne by done.
        destruct (decide (a = i ∧ b = j)) as [[_ ->]|_]; [done|].
        by rewrite Hrow.
    + rewrite list_lookup_insert_ne by done.
      destruct (decide (a = i ∧ b = j)) as [[-> _]|_]; done.
  - destruct (decide (a = i ∧ b = j)) as [[-> ->]|_]; [|done].
    rewrite andb_false_iff in Hab. lia.
Qed.

(** Cells other than the written one keep their value. *)
Lemma get_set_ne m i j v m' a b :
  set m i j v = Some m' → ¬ (a = i ∧ b = j) → get m' a b = get m a b.
Proof.
  intros Hset Hne. rewrite (get_set _ _ _ _ _ _ _ Hset).
  by destruct (decide (a = i ∧ b = j)).
Qed.

Lemma get_set_eq m i j v m' : set m i j v = Some m' → get m' i j = Some v.
Proof.
  intros Hset. rewrite (get_set _ _ _ _ _ _ _ Hset).
  destruct (decide (i = i ∧ j = j)) as [|Hn]; [done|]. by destruct Hn.
Qed.

Lemma binary_grid_get m i j x :
  binary_grid m → get m i j = Some x → x = 0 ∨ x = 1.
Proof.
  unfold binary_grid, get. intros Hbin Hget.
  destruct ((0 <=? i) && (0 <=? j)); [|done].
  destruct (m !! Z.to_nat i) as [row|] eqn:Hrow; [|done]. simpl in Hget.
  rewrite Forall_forall in Hbin.
  assert (Hr : Forall (λ x, x = 0 ∨ x = 1) row).
  { apply Hbin. by eapply list_elem_of_lookup_2. }
  rewrite Forall_forall in Hr. apply Hr. by eapply list_elem_of_lookup_2.
Qed.

Lemma wf_grid_empty W H : 0 ≤ W → 0 ≤ H → wf_grid W H (empty_grid W H).
Proof.
  intros HW HH. unfold wf_grid, empty_grid. split.
  - rewrite length_replicate. lia.
  - apply Forall_replicate. rewrite length_replicate. lia.
Qed.

Lemma get_empty_grid W H i j x : get (empty_grid W H) i j = Some x → x = 0.
Proof.
  unfold get, empty_grid. destruct ((0 <=? i) && (0 <=? j)); [|done].
  destruct (replicate (Z.to_nat H) (replicate (Z.to_nat W) 0) !! Z.to_nat i)
    as [row|] eqn:Hrow; [|done]. simpl.
  apply lookup_replicate in Hrow as [-> _].
  intros Hx. by apply lookup_replicate in Hx as [-> _].
Qed.

(** ** Bits *)

Lemma land_1_cases x : Z.land x 1 = 0 ∨ Z.land x 1 = 1.
Proof.
  assert (Hmod : Z.land x 1 = x mod 2) by (apply (Z.land_ones x 1); lia).
  pose proof (Z.mod_pos_bound x 2 eq_refl). lia.
Qed.

(** Staging a new value in bit 1 leaves bit 0 as it was. *)
Lemma stage_keeps_bit0 x nv :
  nv = 0 ∨ nv = 1 → Z.land (Z.lor x (Z.shiftl nv 1)) 1 = Z.land x 1.
Proof.
  intros [-> | ->]; rewrite Z.land_lor_distr_l.
  - change (Z.land (Z.shiftl 0 1) 1) with 0. apply Z.lor_0_r.
  - change (Z.land (Z.shiftl 1 1) 1) with 0. apply Z.lor_0_r.
Qed.

(** What the second pass reads back from a staged cell. *)
Lemma commit_staged x nv :
  nv = 0 ∨ nv = 1 →
  Z.land (Z.shiftr (Z.lor x (Z.shiftl nv 1)) 1) 1
  = Z.lor (Z.land (Z.shiftr x 1) 1) nv.
Proof.
  intros Hnv. rewrite Z.shiftr_lor, Z.shiftr_shiftl_l by lia.
  change (Z.shiftl nv (1 - 1)) with (Z.shiftl nv 0). rewrite Z.shiftl_0_r.
  rewrite Z.land_lor_distr_l. f_equal. by destruct Hnv as [-> | ->].
Qed.

Lemma commit_staged_binary x nv :
  x = 0 ∨ x = 1 → nv = 0 ∨ nv = 1 →
  Z.land (Z.shiftr (Z.lor x (Z.shiftl nv 1)) 1) 1 = nv.
Proof.
  intros Hx Hnv. rewrite commit_staged by done.
  by destruct Hx as [-> | ->]; destruct Hnv as [-> | ->].
Qed.

Lemma new_value_cases R U count : new_value R U count = 0 ∨ new_value R U count = 1.
Proof. unfold new_value. destruct (Double.geb _ _); auto. Qed.

(** ** Arithmetic of [int] *)

Lemma wrap_int_id z : INT_MIN ≤ z ≤ INT_MAX → wrap_int z = z.
Proof.
  unfold INT_MIN, INT_MAX, wrap_int. intros Hz.
  rewrite Z.mod_small by lia. lia.
Qed.

Lemma wrap_int_range z : INT_MIN ≤ wrap_int z ≤ INT_MAX.
Proof.
  unfold INT_MIN, INT_MAX, wrap_int.
  pose proof (Z.mod_pos_bound (z + 2147483648) 4294967296 ltac:(lia)). lia.
Qed.

(** Wrapping after every addition is wrapping the sum. *)
Lemma int_add_wrap_l a b : int_add (wrap_int a) b = wrap_int (a + b).
Proof.
  unfold int_add, wrap_int. f_equal.
  replace ((a + 2147483648) mod 4294967296 - 2147483648 + b + 2147483648)
    with ((a + 2147483648) mod 4294967296 + b) by lia.
  rewrite Zplus_mod_idemp_l. f_equal. lia.
Qed.

Lemma foldl_int_add {A} (f : A → Z) (l : list A) c :
  foldl (λ c x, int_add c (f x)) (wrap_int c) l
  = wrap_int (foldl (λ c x, c + f x) c l).
Proof.
  revert c. induction l as [|x l IH]; intros c; [done|].
  simpl. rewrite int_add_wrap_l. apply IH.
Qed.

(** The window size in [int] is the window size when that fits an [int]. *)
Lemma total_fits R :
  (2 * R + 1) * (2 * R + 1) < 2 ^ 31 →
  int_mul (int_add (int_mul 2 R) 1) (int_add (int_mul 2 R) 1)
  = (2 * R + 1) * (2 * R + 1).
Proof.
  intros Htotal. change (2 ^ 31) with 2147483648 in Htotal.
  assert (HR : -46341 < 2 * R + 1 < 46341) by nia.
  unfold int_mul, int_add.
  rewrite (wrap_int_id (2 * R)) by (unfold INT_MIN, INT_MAX; lia).
  rewrite (wrap_int_id (2 * R + 1)) by (unfold INT_MIN, INT_MAX; lia).
  apply wrap_int_id. unfold INT_MIN, INT_MAX. nia.
Qed.

(** ** The neighbour count *)

Lemma foldl_ext_in {A B} (f g : A → B → A) (l : list B) a :
  (∀ a x, x ∈ l → f a x = g a x) → foldl f a l = foldl g a l.
Proof.
  revert a. induction l as [|x l IH]; intros a Hfg; [done|].
  simpl. rewrite Hfg by left. apply IH. intros b y Hy. apply Hfg. by right.
Qed.

Lemma foldl_bind {A B C} (g : A → C → A) (h : B → list C) (l : list B) a :
  foldl g a (l ≫= h) = foldl (λ a x, foldl g a (h x)) a l.
Proof.
  revert a. induction l as [|x l IH]; intros a; [done|].
  simpl. by rewrite foldl_app, IH.
Qed.

Lemma foldl_fmap_list {A B C} (g : A → C → A) (h : B → C) (l : list B) a :
  foldl g a (h <$> l) = foldl (λ a x, g a (h x)) a l.
Proof. revert a. induction l as [|x l IH]; intros a; [done|]. simpl. apply IH. Qed.

Lemma for_range_foldl {S} (f : S → Z → S) lo hi (body : Z → S → option S) s :
  (∀ x t, lo ≤ x < hi → body x t = Some (f t x)) →
  for_range lo hi body s = Some (foldl f s (seqZ lo (hi - lo))).
Proof.
  intros Hbody. unfold for_range. rewrite (for_loop_foldl f).
  - do 2 f_equal. unfold seqZ. by rewrite Nat2Z.id.
  - intros x t Hx. apply Hbody. lia.
Qed.

Lemma count_cell_bit0 W H m ni nj count :
  wf_grid W H m →
  count_cell m W H ni nj count = Some (int_add count (counts_bit0 m W H (ni, nj))).
Proof.
  intros Hwf. unfold count_cell, counts_bit0. simpl.
  destruct (in_grid W H ni nj) eqn:Hin; [|done].
  apply in_grid_spec in Hin as [Hi Hj].
  destruct (wf_grid_get _ _ _ _ _ Hwf Hi Hj) as [x ->]. done.
Qed.

(** On a well-formed map the two window loops never fail and return the
    number of window coordinates outside the grid plus the bits 0 of those
    inside, added up in [int]. *)
Lemma neighbor_count_bit0 W H R m i j :
  wf_grid W H m → neighbor_count m W H R i j = Some (bit0_count m W H R i j).
Proof.
  intros Hwf. unfold neighbor_count, bit0_count, window.
  rewrite foldl_bind.
  rewrite (for_range_foldl
    (λ c dx, foldl (λ c p, int_add c (counts_bit0 m W H p)) c
               ((λ dy, (i + dx, j + dy)) <$> seqZ (- R) (2 * R + 1)))).
  - do 3 f_equal. lia.
  - intros dx c _. rewrite foldl_fmap_list.
    rewrite (for_range_foldl
      (λ c dy, int_add c (counts_bit0 m W H (i + dx, j + dy)))).
    + do 3 f_equal. lia.
    + intros dy c' _. by apply count_cell_bit0.
Qed.

(** The count reads bit 0 only: maps that agree on bit 0 of every cell of
    the grid have the same counts. *)
Lemma bit0_count_ext W H R m m' i j :
  (∀ a b, 0 ≤ a < H → 0 ≤ b < W →
          Z.land (default 0 (get m' a b)) 1 = Z.land (default 0 (get m a b)) 1) →
  bit0_count m' W H R i j = bit0_count m W H R i j.
Proof.
  intros Hagree. unfold bit0_count. apply foldl_ext_in.
  intros c [a b] _. f_equal. unfold counts_bit0. simpl.
  destruct (in_grid W H a b) eqn:Hin; [|done].
  apply in_grid_spec in Hin as [Ha Hb]. by apply Hagree.
Qed.

Lemma foldl_count_filter {A} (f : A → bool) (l : list A) c :
  foldl (λ c p, c + (if f p then 1 else 0)) c l
  = c + Z.of_nat (length (filter (λ p, f p = true) l)).
Proof.
  revert c. induction l as [|x l IH]; intros c; simpl; [lia|].
  rewrite IH. rewrite filter_cons. destruct (f x) eqn:Hx.
  - rewrite decide_True by done. simpl length. lia.
  - rewrite decide_False by done. lia.
Qed.

(** On a map of 0s and 1s, bit 0 of a cell is the cell, and the sum is the
    number of window coordinates that are outside the grid or occupied. *)
Lemma bit0_sum_binary W H R m i j :
  wf_grid W H m → binary_grid m →
  bit0_sum m W H R i j = window_count m W H R i j.
Proof.
  intros Hwf Hbin. unfold bit0_sum, window_count.
  rewrite <- (Z.add_0_l (Z.of_nat _)), <- foldl_count_filter.
  apply foldl_ext_in. intros c [a b] _. f_equal.
  unfold counts_bit0, counts_as_occupied. simpl.
  destruct (in_grid W H a b) eqn:Hin; [|done]. simpl.
  apply in_grid_spec in Hin as [Ha Hb].
  destruct (wf_grid_get _ _ _ _ _ Hwf Ha Hb) as [x Hx]. rewrite Hx. simpl.
  destruct (binary_grid_get _ _ _ _ Hbin Hx) as [-> | ->]; done.
Qed.

Lemma counts_bit0_range m W H p : 0 ≤ counts_bit0 m W H p ≤ 1.
Proof.
  unfold counts_bit0. destruct (in_grid W H p.1 p.2); [|lia].
  destruct (land_1_cases (default 0 (get m p.1 p.2))); lia.
Qed.

Lemma counts_bit0_outside m W H a b :
  ¬ (0 ≤ a < H ∧ 0 ≤ b < W) → counts_bit0 m W H (a, b) = 1.
Proof.
  intros Hout. unfold counts_bit0. simpl.
  by rewrite (proj2 (in_grid_false W H a b) Hout).
Qed.

Lemma foldl_counts_bit0_bounds m W H (l : list (Z * Z)) c :
  c + Z.of_nat (length (filter (λ p, in_grid W H p.1 p.2 = false) l))
  ≤ foldl (λ c p, c + counts_bit0 m W H p) c l
  ≤ c + Z.of_nat (length l).
Proof.
  revert c. induction l as [|p l IH]; intros c; simpl; [lia|].
  specialize (IH (c + counts_bit0 m W H p)).
  pose proof (counts_bit0_range m W H p) as Hr.
  rewrite filter_cons. destruct (decide (in_grid W H p.1 p.2 = false)) as [Hout|Hin].
  - assert (counts_bit0 m W H p = 1) as Hp
      by (unfold counts_bit0; by rewrite Hout).
    simpl length. lia.
  - lia.
Qed.

Lemma length_window R i j :
  Z.of_nat (length (window R i j)) = Z.max 0 (2 * R + 1) * Z.max 0 (2 * R + 1).
Proof.
  unfold window.
  assert (Hlen : ∀ l : list Z,
    length (l ≫= λ dx, (λ dy, (i + dx, j + dy)) <$> seqZ (- R) (2 * R + 1))
    = (length l * Z.to_nat (2 * R + 1))%nat).
  { induction l as [|x l IH]; [done|].
    rewrite bind_cons, length_app, IH, length_fmap, length_seqZ. simpl. lia. }
  rewrite Hlen, length_seqZ. lia.
Qed.

(** The count is the sum in [int]; it is the sum when the window size fits
    an [int]. *)
Lemma bit0_count_wrap m W H R i j :
  bit0_count m W H R i j = wrap_int (bit0_sum m W H R i j).
Proof. unfold bit0_count, bit0_sum. apply (foldl_int_add _ _ 0). Qed.

Lemma bit0_sum_bounds m W H R i j :
  window_outside W H R i j ≤ bit0_sum m W H R i j
  ≤ Z.max 0 (2 * R + 1) * Z.max 0 (2 * R + 1).
Proof.
  pose proof (foldl_counts_bit0_bounds m W H (window R i j) 0) as Hb.
  pose proof (length_window R i j) as Hlen.
  unfold bit0_sum, window_outside. lia.
Qed.

Lemma bit0_count_sum m W H R i j :
  0 ≤ R → (2 * R + 1) * (2 * R + 1) < 2 ^ 31 →
  bit0_count m W H R i j = bit0_sum m W H R i j.
Proof.
  intros HR Htotal. change (2 ^ 31) with 2147483648 in Htotal.
  rewrite bit0_count_wrap. apply wrap_int_id.
  pose proof (bit0_sum_bounds m W H R i j) as Hb.
  assert (0 ≤ window_outside W H R i j) by (unfold window_outside; lia).
  unfold INT_MIN, INT_MAX. nia.
Qed.

(** *** The window of the 1 x 1 map *)

Lemma foldl_add_const {A} (f : A → Z) (k : Z) (l : list A) c :
  (∀ x, x ∈ l → f x = k) →
  foldl (λ c x, c + f x) c l = c + k * Z.of_nat (length l).
Proof.
  revert c. induction l as [|x l IH]; intros c Hf; simpl; [lia|].
  rewrite IH by (intros y Hy; apply Hf; by right).
  rewrite (Hf x) by left. lia.
Qed.

Lemma seqZ_around_0 R :
  0 ≤ R → seqZ (- R) (2 * R + 1) = seqZ (- R) R ++ 0 :: seqZ 1 R.
Proof.
  intros HR. replace (2 * R + 1) with (R + (R + 1)) by lia.
  rewrite seqZ_app by lia. f_equal.
  rewrite seqZ_cons by lia. f_equal; [lia|]. f_equal; lia.
Qed.

(** A sum over [-R, ..., R] of a function that is [k] everywhere but at 0. *)
Lemma foldl_around_0 (f : Z → Z) (k R c : Z) :
  0 ≤ R → (∀ x, x ≠ 0 → f x = k) →
  foldl (λ c x, c + f x) c (seqZ (- R) (2 * R + 1)) = c + 2 * R * k + f 0.
Proof.
  intros HR Hf. rewrite seqZ_around_0, foldl_app by done. simpl.
  rewrite (foldl_add_const f k), (foldl_add_const f k), !length_seqZ.
  - rewrite !Z2Nat.id by lia. lia.
  - intros x Hx. apply elem_of_seqZ in Hx. apply Hf. lia.
  - intros x Hx. apply elem_of_seqZ in Hx. apply Hf. lia.
Qed.

(** On the map [[0]] every window coordinate but the cell itself is outside
    the grid. *)
Lemma bit0_sum_single_empty R :
  0 ≤ R → bit0_sum [[0]] 1 1 R 0 0 = (2 * R + 1) * (2 * R + 1) - 1.
Proof.
  intros HR. unfold bit0_sum, window. rewrite foldl_bind.
  rewrite (foldl_ext_in _
    (λ c dx, c + foldl (λ c dy, c + counts_bit0 [[0]] 1 1 (0 + dx, 0 + dy)) 0
                   (seqZ (- R) (2 * R + 1)))).
  - rewrite (foldl_around_0 _ (2 * R + 1)) by (try done;
      intros dx Hdx; rewrite (foldl_around_0 _ 1) by (try done;
        intros dy _; apply counts_bit0_outside; lia);
      rewrite counts_bit0_outside by lia; lia).
    rewrite (foldl_around_0 _ 1) by (try done;
      intros dy Hdy; apply counts_bit0_outside; lia).
    replace (counts_bit0 [[0]] 1 1 (0 + 0, 0 + 0)) with 0 by reflexivity. lia.
  - intros c dx _. rewrite foldl_fmap_list.
    generalize (seqZ (- R) (2 * R + 1)). intros l. revert c.
    induction l as [|dy l IH]; intros c; simpl; [lia|].
    rewrite IH, (IH (0 + _)). lia.
Qed.

(** ** Row-major passes over the map *)

Lemma visited_next_col i j a b :
  visited i (j + 1) a b = visited i j a b || ((a =? i) && (b =? j)).
Proof. unfold visited. destruct (a <? i) eqn:?, (a =? i) eqn:?, (b <? j) eqn:?, (b =? j) eqn:?; simpl; lia. Qed.

Lemma visited_next_row W i a b :
  0 ≤ b < W → visited (i + 1) 0 a b = visited i W a b.
Proof. intros Hb. unfold visited. destruct (a <? i) eqn:?, (a =? i) eqn:?, (a <? i + 1) eqn:?, (a =? i + 1) eqn:?, (b <? W) eqn:?, (b <? 0) eqn:?; simpl; lia. Qed.

(** A pass whose body at [(i, j)] writes [after i j] to that cell and to no
    other never fails and leaves [after] in every cell. *)
Lemma pass_sweep (W H : Z) (body : Z → Z → Map → option Map)
    (before after : Z → Z → Z) (m : Map) :
  0 ≤ W → 0 ≤ H →
  pass_state W H before after 0 0 m →
  (∀ i j t, 0 ≤ i < H → 0 ≤ j < W → pass_state W H before after i j t →
     ∃ t', body i j t = Some t' ∧ wf_grid W H t' ∧
           get t' i j = Some (after i j) ∧
           ∀ a b, ¬ (a = i ∧ b = j) → get t' a b = get t a b) →
  ∃ m', for_range 0 H (λ i t, for_range 0 W (λ j t, body i j t) t) m = Some m' ∧
        wf_grid W H m' ∧
        ∀ a b, 0 ≤ a < H → 0 ≤ b < W → get m' a b = Some (after a b).
Proof.
  intros HW HH Hinit Hbody.
  destruct (for_range_inv (λ i t, pass_state W H before after i 0 t) 0 H
              (λ i t, for_range 0 W (λ j t, body i j t) t) m)
    as (m' & Hrun & Hwf & Hcells); [done|done| |].
  - intros i t Hi Hrow.
    destruct (for_range_inv (λ j t, pass_state W H before after i j t) 0 W
                (λ j t, body i j t) t)
      as (t' & Hrun & Hwf & Hcells); [done|done| |].
    + intros j u Hj Hu.
      destruct (Hbody i j u Hi Hj Hu) as (u' & Hrun & Hwf & Hhere & Hothers).
      exists u'. split; [done|]. split; [done|].
      intros a b Ha Hb. rewrite visited_next_col.
      destruct (decide (a = i ∧ b = j)) as [[-> ->]|Hne].
      * rewrite !Z.eqb_refl, orb_true_r. done.
      * rewrite Hothers by done. destruct Hu as [_ Hu]. rewrite Hu by done.
        replace ((a =? i) && (b =? j)) with false; [by rewrite orb_false_r|].
        symmetry. apply andb_false_iff. lia.
    + exists t'. split; [done|]. split; [done|].
      intros a b Ha Hb. rewrite (visited_next_row W) by done. by apply Hcells.
  - exists m'. split; [done|]. split; [done|].
    intros a b Ha Hb. rewrite Hcells by done.
    replace (visited H 0 a b) with true; [done|].
    symmetry. unfold visited. apply orb_true_iff. lia.
Qed.

(** ** The cells of the result of [cellularAutomata] *)

Section ca.
Variables (W H R : Z) (U : double) (m : Map).
Hypothesis (HW : 0 ≤ W) (HH : 0 ≤ H).
Hypothesis Hwf : wf_grid W H m.

Local Abbreviation input := (cell_in m).
Local Abbreviation staged := (cell_staged m W H R U).
Local Abbreviation out := (cell_out m W H R U).

Lemma get_cell_in a b : 0 ≤ a < H → 0 ≤ b < W → get m a b = Some (input a b).
Proof using Hwf.
  intros Ha Hb. unfold cell_in.
  by destruct (wf_grid_get _ _ _ _ _ Hwf Ha Hb) as [x ->].
Qed.

(** While the first pass runs, every neighbour read sees bit 0 of the
    input. *)
Lemma first_pass_bit0 i j t a b :
  pass_state W H input staged i j t →
  0 ≤ a < H → 0 ≤ b < W →
  Z.land (default 0 (get t a b)) 1 = Z.land (default 0 (get m a b)) 1.
Proof using Hwf.
  intros [_ Hcells] Ha Hb. rewrite Hcells, get_cell_in by done. simpl.
  destruct (visited i j a b); [|done].
  apply stage_keeps_bit0, new_value_cases.
Qed.

Lemma ca_first_pass_cells :
  ∃ m1, ca_first_pass W H R U m = Some m1 ∧ wf_grid W H m1 ∧
        ∀ a b, 0 ≤ a < H → 0 ≤ b < W → get m1 a b = Some (staged a b).
Proof using HW HH Hwf.
  apply (pass_sweep W H (ca_update W H R U) input staged); [done|done| |].
  - split; [done|]. intros a b Ha Hb.
    replace (visited 0 0 a b) with false; [by apply get_cell_in|].
    symmetry. unfold visited. apply orb_false_iff.
    split; [lia|]. apply andb_false_iff. lia.
  - intros i j t Hi Hj Ht. unfold ca_update.
    pose proof Ht as [Hwft Hcells].
    rewrite (neighbor_count_bit0 W H) by done. simpl.
    rewrite (bit0_count_ext W H R m t)
      by (intros a b; apply (first_pass_bit0 i j); done).
    rewrite Hcells by done.
    replace (visited i j i j) with false
      by (symmetry; unfold visited; apply orb_false_iff;
          split; [lia|]; apply andb_false_iff; lia).
    simpl.
    destruct (wf_grid_set W H t i j
                (Z.lor (input i j)
                   (Z.shiftl (new_value R U (bit0_count m W H R i j)) 1)))
      as (t' & Hset & Hwf'); [done..|].
    exists t'. split; [done|]. split; [done|]. split.
    + by rewrite (get_set_eq _ _ _ _ _ Hset).
    + intros a b Hne. by apply (get_set_ne _ _ _ _ _ _ _ Hset).
Qed.

Lemma ca_second_pass_cells m1 :
  wf_grid W H m1 →
  (∀ a b, 0 ≤ a < H → 0 ≤ b < W → get m1 a b = Some (staged a b)) →
  ∃ m2, ca_second_pass W H m1 = Some m2 ∧ wf_grid W H m2 ∧
        ∀ a b, 0 ≤ a < H → 0 ≤ b < W → get m2 a b = Some (out a b).
Proof using HW HH.
  intros Hwf1 Hcells1.
  apply (pass_sweep W H ca_commit staged out); [done|done| |].
  - split; [done|]. intros a b Ha Hb.
    replace (visited 0 0 a b) with false; [by apply Hcells1|].
    symmetry. unfold visited. apply orb_false_iff.
    split; [lia|]. apply andb_false_iff. lia.
  - intros i j t Hi Hj [Hwft Hcells]. unfold ca_commit.
    rewrite Hcells by done.
    replace (visited i j i j) with false
      by (symmetry; unfold visited; apply orb_false_iff;
          split; [lia|]; apply andb_false_iff; lia).
    simpl.
    destruct (wf_grid_set W H t i j (Z.land (Z.shiftr (staged i j) 1) 1))
      as (t' & Hset & Hwf'); [done..|].
    exists t'. split; [done|]. split; [done|]. split.
    + by rewrite (get_set_eq _ _ _ _ _ Hset).
    + intros a b Hne. by apply (get_set_ne _ _ _ _ _ _ _ Hset).
Qed.

(** [cellularAutomata] never fails on a map of its dimensions, keeps the
    dimensions, and leaves [cell_out] in every cell. *)
Lemma cellularAutomata_cells :
  ∃ m', cellularAutomata m W H R U = Some m' ∧ wf_grid W H m' ∧
        ∀ a b, 0 ≤ a < H → 0 ≤ b < W → get m' a b = Some (out a b).
Proof using HW HH Hwf.
  destruct ca_first_pass_cells as (m1 & Hrun1 & Hwf1 & Hcells1).
  destruct (ca_second_pass_cells m1 Hwf1 Hcells1) as (m2 & Hrun2 & Hwf2 & Hcells2).
  exists m2. unfold cellularAutomata. rewrite Hrun1. simpl. done.
Qed.
End ca.

(** ** The literals

    Each literal is the quotient, correctly rounded, of two integers. *)
Example double_lit_0_2 :
  Double.div (Double.of_int 1) (Double.of_int 5) = Double.lit_0_2.
Proof. vm_compute. reflexivity. Qed.

Example double_lit_0_1 :
  Double.div (Double.of_int 1) (Double.of_int 10) = Double.lit_0_1.
Proof. vm_compute. reflexivity. Qed.

Example double_lit_0_5 :
  Double.div (Double.of_int 1) (Double.of_int 2) = Double.lit_0_5.
Proof. vm_compute. reflexivity. Qed.

Example double_one : Double.of_int 1 = Double.one.
Proof. vm_compute. reflexivity. Qed.

(** ** The scripted random source is a random source *)

Lemma script_draw_range g : 0 ≤ script_draw g ≤ 3.
Proof.
  unfold script_draw. destruct g as [|k g]; [lia|].
  pose proof (Z.mod_pos_bound k 4 eq_refl). lia.
Qed.

Lemma script_chance_range g :
  Double.geb (script_chance g).1 Double.zero = true ∧
  Double.ltb (script_chance g).1 Double.one = true.
Proof.
  unfold script_chance. simpl. pose proof (script_draw_range g) as Hr.
  assert (Hk : script_draw g = 0 ∨ script_draw g = 1 ∨
               script_draw g = 2 ∨ script_draw g = 3) by lia.
  destruct Hk as [-> | [-> | [-> | ->]]]; by vm_compute.
Qed.

#[export] Instance script_rng : RandomSource (list Z) := {
  chance := script_chance;
  dirDist := script_dirDist;
  chance_range := script_chance_range;
  dirDist_range := script_draw_range
}.

(** ** Painting cells *)

Lemma for_range_inv_max {S} (P : Z → S → Prop) lo hi (body : Z → S → option S) s :
  P lo s →
  (∀ x t, lo ≤ x < hi → P x t → ∃ t', body x t = Some t' ∧ P (x + 1) t') →
  ∃ s', for_range lo hi body s = Some s' ∧ P (Z.max lo hi) s'.
Proof.
  intros Hs Hbody. destruct (Z.le_gt_cases lo hi) as [Hle|Hgt].
  - rewrite Z.max_r by done. by apply for_range_inv.
  - rewrite Z.max_l by lia. exists s. split; [|done]. apply for_range_empty. lia.
Qed.

Lemma painted_none (P : Z → Z → Prop) m : (∀ a b, ¬ P a b) → painted P m m.
Proof. intros HP a b. split; [|done]. intros Hab. by destruct (HP a b). Qed.

Lemma painted_ext (P Q : Z → Z → Prop) m m' :
  (∀ a b, P a b ↔ Q a b) → painted P m m' → painted Q m m'.
Proof.
  intros HPQ Hp a b. destruct (Hp a b) as [H1 H0]. split.
  - intros Hq. apply H1. by apply HPQ.
  - intros Hq. apply H0. intros Hp'. apply Hq. by apply HPQ.
Qed.

Lemma painted_trans (P Q : Z → Z → Prop) m m1 m2 :
  (∀ a b, Decision (Q a b)) →
  painted P m m1 → painted Q m1 m2 → painted (λ a b, P a b ∨ Q a b) m m2.
Proof.
  intros Hdec Hp Hq a b.
  destruct (Hp a b) as [Hp1 Hp0], (Hq a b) as [Hq1 Hq0]. split.
  - intros [Hpa|Hqa]; [|by apply Hq1].
    destruct (Hdec a b) as [Hqa|Hnq]; [by apply Hq1|].
    rewrite Hq0 by done. by apply Hp1.
  - intros Hn. rewrite Hq0 by tauto. apply Hp0. tauto.
Qed.

Lemma painted_grows P m m' : (∀ a b, Decision (P a b)) → painted P m m' → grows m m'.
Proof.
  intros Hdec Hp a b. destruct (Hp a b) as [H1 H0].
  destruct (Hdec a b); [right|left]; auto.
Qed.

Lemma grows_refl m : grows m m.
Proof. intros a b. by left. Qed.

Lemma grows_trans m m1 m2 : grows m m1 → grows m1 m2 → grows m m2.
Proof.
  intros H1 H2 a b. destruct (H2 a b) as [->|]; [|by right]. apply H1.
Qed.

Lemma grows_occupied m m' a b : grows m m' → occupied m a b → occupied m' a b.
Proof. unfold occupied. intros Hg Hocc. destruct (Hg a b) as [->| ->]; done. Qed.

(** [mark] never fails on a map of the dimensions of its guard, and writes
    the cell when the guard holds. *)
Lemma mark_spec W H m x y :
  wf_grid W H m →
  ∃ m', mark W H m x y = Some m' ∧ wf_grid W H m' ∧
        painted (λ a b, in_grid W H x y = true ∧ a = x ∧ b = y) m m'.
Proof.
  intros Hwf. unfold mark. destruct (in_grid W H x y) eqn:Hin.
  - pose proof Hin as [Hx Hy]%in_grid_spec.
    destruct (wf_grid_set W H m x y 1 Hwf Hx Hy) as (m' & Hset & Hwf').
    exists m'. split; [done|]. split; [done|]. intros a b. split.
    + intros (_ & -> & ->). by apply (get_set_eq _ _ _ _ _ Hset).
    + intros Hn. apply (get_set_ne _ _ _ _ _ _ _ Hset). tauto.
  - exists m. split; [done|]. split; [done|].
    apply painted_none. intros a b [? _]. done.
Qed.


(** The room loops never fail and paint the cells of the grid with a row in
    [x - roomSizeX / 2, x + roomSizeX / 2] and a column in
    [y - roomSizeY / 2, y + roomSizeY / 2]. *)
Lemma stamp_room_spec W H roomSizeX roomSizeY m x y :
  wf_grid W H m →
  ∃ m', stamp_room W H roomSizeX roomSizeY m x y = Some m' ∧ wf_grid W H m' ∧
        painted (in_room W H roomSizeX roomSizeY x y) m m'.
Proof.
  intros Hwf. unfold stamp_room, in_room.
  set (hX := roomSizeX ÷ 2). set (hY := roomSizeY ÷ 2).
  destruct (for_range_inv_max
    (λ d t, wf_grid W H t ∧
       painted (λ a b, in_grid W H a b = true ∧
                       x - hX ≤ a < x + d ∧ y - hY ≤ b ≤ y + hY) m t)
    (- hX) (hX + 1)
    (λ dxRoom t, for_range (- hY) (hY + 1)
       (λ dyRoom t, mark W H t (x + dxRoom) (y + dyRoom)) t) m)
    as (m' & Hrun & Hwf' & Hp).
  - split; [done|]. apply painted_none. intros a b. lia.
  - intros d t Hd [Hwft Hpt].
    destruct (for_range_inv_max
      (λ e u, wf_grid W H u ∧
         painted (λ a b, in_grid W H a b = true ∧
                         a = x + d ∧ y - hY ≤ b < y + e) t u)
      (- hY) (hY + 1)
      (λ dyRoom u, mark W H u (x + d) (y + dyRoom)) t)
      as (t' & Hrun & Hwf' & Hp).
    + split; [done|]. apply painted_none. intros a b. lia.
    + intros e u He [Hwfu Hpu].
      destruct (mark_spec W H u (x + d) (y + e) Hwfu) as (u' & Hmark & Hwfu' & Hpu').
      exists u'. split; [done|]. split; [done|].
      eapply painted_ext; [|eapply painted_trans; [|exact Hpu|exact Hpu']].
      * intros a b. simpl. split.
        -- intros [[Hin [-> Hb]]|[Hin [-> ->]]]; (split; [done|lia]).
        -- intros [Hin [-> Hb]].
           destruct (decide (b = y + e)) as [->|Hne]; [by right|left].
           split; [done|lia].
      * intros a b. apply _.
    + exists t'. split; [done|]. split; [done|].
      eapply painted_ext; [|eapply painted_trans; [|exact Hpt|exact Hp]].
      * intros a b. simpl. split.
        -- intros [[Hin [Ha Hb]]|[Hin [-> Hb]]]; (split; [done|lia]).
        -- intros [Hin [Ha Hb]].
           destruct (decide (a = x + d)) as [->|Hne]; [right|left];
             (split; [done|lia]).
      * intros a b. apply _.
  - exists m'. split; [done|]. split; [done|].
    eapply painted_ext; [|exact Hp].
    intros a b. simpl. split; intros [Hin Hab]; (split; [done|lia]).
Qed.

#[global] Instance in_room_dec W H rX rY x y a b : Decision (in_room W H rX rY x y a b).
Proof. unfold in_room. apply _. Defined.

(** ** One step, one room decision *)

Section agent.
Context {rng : Type} {RS : RandomSource rng}.
Implicit Types (s : agent rng) (m : Map).

Ltac step_cases s :=
  destruct (chance (gen s)) as [? ?];
  try destruct (Double.ltb _ _);
  try destruct (dirDist _) as [? ?].

(** A step never fails on a map of the dimensions of its guards; it marks
    the cell of the agent when the agent is inside the grid and writes no
    other cell; it keeps the agent inside the grid. *)
Lemma inner_step_spec W H probIncreaseChange s :
  wf_grid W H (newMap s) →
  ∃ s', inner_step W H probIncreaseChange s = Some s' ∧
        wf_grid W H (newMap s') ∧
        painted (λ a b, in_grid W H (agentX s) (agentY s) = true ∧
                        a = agentX s ∧ b = agentY s) (newMap s) (newMap s') ∧
        (in_grid W H (agentX s) (agentY s) = true →
         in_grid W H (agentX s') (agentY s') = true).
Proof.
  intros Hwf. unfold inner_step.
  destruct (mark_spec W H (newMap s) (agentX s) (agentY s) Hwf)
    as (m' & -> & Hwf' & Hp). simpl.
  destruct (in_grid W H (agentX s + dx s) (agentY s + dy s)) eqn:Hcand.
  - step_cases s; eexists; (split; [reflexivity|]); simpl; auto.
  - destruct (dirDist (gen s)) as [dir g1].
    eexists; (split; [reflexivity|]); simpl; auto.
Qed.


(** A step moves the agent to a cell of the grid or leaves it where it
    is. *)
Lemma inner_step_move W H probIncreaseChange s s' :
  inner_step W H probIncreaseChange s = Some s' →
  (agentX s' = agentX s ∧ agentY s' = agentY s) ∨
  (agentX s' = agentX s + dx s ∧ agentY s' = agentY s + dy s ∧
   in_grid W H (agentX s') (agentY s') = true).
Proof.
  unfold inner_step. destruct (mark _ _ _ _ _); [|done]. simpl.
  destruct (in_grid W H (agentX s + dx s) (agentY s + dy s)) eqn:Hcand.
  - step_cases s; intros [= <-]; right; done.
  - destruct (dirDist (gen s)) as [dir g1]. intros [= <-]. by left.
Qed.

(** The room decision never fails, only paints cells of the room, and
    leaves the agent where it is. *)
Lemma room_decision_spec W H roomSizeX roomSizeY probIncreaseRoom s :
  wf_grid W H (newMap s) →
  ∃ s', room_decision W H roomSizeX roomSizeY probIncreaseRoom s = Some s' ∧
        wf_grid W H (newMap s') ∧
        (newMap s' = newMap s ∨
         painted (in_room W H roomSizeX roomSizeY (agentX s) (agentY s))
           (newMap s) (newMap s')) ∧
        agentX s' = agentX s ∧ agentY s' = agentY s.
Proof.
  intros Hwf. unfold room_decision.
  destruct (chance (gen s)) as [c g1].
  destruct (Double.ltb c (probGenerateRoom s)).
  - destruct (stamp_room_spec W H roomSizeX roomSizeY (newMap s)
                (agentX s) (agentY s) Hwf) as (m' & -> & Hwf' & Hp). simpl.
    eexists; (split; [reflexivity|]); simpl; auto.
  - eexists; (split; [reflexivity|]); simpl; auto.
Qed.

(** ** The invariant of a call *)

Lemma inner_step_inv W H probIncreaseChange m0 x0 y0 s :
  agent_inv W H m0 x0 y0 s →
  ∃ s', inner_step W H probIncreaseChange s = Some s' ∧ agent_inv W H m0 x0 y0 s'.
Proof.
  intros (Hwf & Hg & Hin).
  destruct (inner_step_spec W H probIncreaseChange s Hwf)
    as (s' & Hrun & Hwf' & Hp & Hin').
  exists s'. split; [done|]. split; [done|]. split; [|auto].
  eapply grows_trans; [exact Hg|]. eapply painted_grows; [|exact Hp].
  intros a b. apply _.
Qed.

Lemma room_decision_inv W H roomSizeX roomSizeY probIncreaseRoom m0 x0 y0 s :
  agent_inv W H m0 x0 y0 s →
  ∃ s', room_decision W H roomSizeX roomSizeY probIncreaseRoom s = Some s' ∧
        agent_inv W H m0 x0 y0 s'.
Proof.
  intros (Hwf & Hg & Hin).
  destruct (room_decision_spec W H roomSizeX roomSizeY probIncreaseRoom s Hwf)
    as (s' & Hrun & Hwf' & Hmap & Hx & Hy).
  exists s'. split; [done|]. split; [done|]. split.
  - eapply grows_trans; [exact Hg|]. destruct Hmap as [->|Hp].
    + apply grows_refl.
    + eapply painted_grows; [|exact Hp]. intros a b. apply _.
  - rewrite Hx, Hy. done.
Qed.

Lemma steps_inv W H I probIncreaseChange m0 x0 y0 s :
  agent_inv W H m0 x0 y0 s →
  ∃ s', steps W H I probIncreaseChange s = Some s' ∧ agent_inv W H m0 x0 y0 s'.
Proof.
  intros Hs. apply for_range_preserves; [done|].
  intros _ t _. apply inner_step_inv.
Qed.

Lemma walk_inv W H I roomSizeX roomSizeY probIncreaseRoom probIncreaseChange
    m0 x0 y0 s :
  agent_inv W H m0 x0 y0 s →
  ∃ s', walk W H I roomSizeX roomSizeY probIncreaseRoom probIncreaseChange s
        = Some s' ∧ agent_inv W H m0 x0 y0 s'.
Proof.
  intros Hs. unfold walk.
  destruct (steps_inv W H I probIncreaseChange m0 x0 y0 s Hs) as (s1 & -> & Hs1).
  simpl. by apply room_decision_inv.
Qed.

Lemma walks_inv W H J I roomSizeX roomSizeY probIncreaseRoom probIncreaseChange
    m0 x0 y0 s :
  agent_inv W H m0 x0 y0 s →
  ∃ s', walks W H J I roomSizeX roomSizeY probIncreaseRoom probIncreaseChange s
        = Some s' ∧ agent_inv W H m0 x0 y0 s'.
Proof.
  intros Hs. apply for_range_preserves; [done|].
  intros _ t _. apply walk_inv.
Qed.

Lemma initial_agent_inv W H m probGenerateRoom probChangeDirection x y (seed : rng) :
  wf_grid W H m →
  agent_inv W H m x y
    (initial_agent m probGenerateRoom probChangeDirection x y seed).
Proof. intros Hwf. split; [done|]. split; [apply grows_refl|done]. Qed.

(** A call never fails on a map of its dimensions; the map it returns has
    the same dimensions and has only grown, and the agent is inside the
    grid if it started there. *)
Lemma drunkAgent_inv m W H J I roomSizeX roomSizeY
    probGenerateRoom probIncreaseRoom probChangeDirection probIncreaseChange
    x y (seed : rng) :
  wf_grid W H m →
  ∃ m' x' y',
    drunkAgent m W H J I roomSizeX roomSizeY probGenerateRoom probIncreaseRoom
      probChangeDirection probIncreaseChange x y seed = Some (m', x', y') ∧
    wf_grid W H m' ∧ grows m m' ∧
    (in_grid W H x y = true → in_grid W H x' y' = true).
Proof.
  intros Hwf. unfold drunkAgent.
  destruct (walks_inv W H J I roomSizeX roomSizeY probIncreaseRoom
              probIncreaseChange m x y _
              (initial_agent_inv W H m probGenerateRoom probChangeDirection
                 x y seed Hwf)) as (s & -> & Hwf' & Hg & Hin).
  exists (newMap s), (agentX s), (agentY s). done.
Qed.

End agent.

(** ** Properties of [cellularAutomata] *)

(** C1, as stated, fails for the radii whose window has more coordinates
    than an [int] counts.  On the 1 x 1 map [[0]] with [R = 23170] and
    [U = 1.0] the window has [46341^2 = 2147488281] coordinates, all but
    the cell itself outside the grid: the count of the claim is
    2147488280, and 2147488280 / 2147488281 is below 1.0 in [double].  In
    the source [count] and [total] are [int]: they hold -2147479016 and
    -2147479015, the quotient is above 1.0, and the cell is occupied after
    the step. *)
Lemma cellularAutomata_int_overflow :
  wf_grid 1 1 [[0]] ∧ binary_grid [[0]] ∧
  window_count [[0]] 1 1 23170 0 0 = 2147488280 ∧
  (2 * 23170 + 1) * (2 * 23170 + 1) = 2147488281 ∧
  Double.geb
    (Double.div (Double.of_int 2147488280) (Double.of_int 2147488281))
    Double.one = false ∧
  neighbor_count [[0]] 1 1 23170 0 0 = Some (-2147479016) ∧
  new_value 23170 Double.one (-2147479016) = 1 ∧
  (∃ m', cellularAutomata [[0]] 1 1 23170 Double.one = Some m' ∧
         get m' 0 0 = Some 1) ∧
  ¬ (∃ m', cellularAutomata [[0]] 1 1 23170 Double.one = Some m' ∧
           wf_grid 1 1 m' ∧
           ∀ i j, 0 ≤ i < 1 → 0 ≤ j < 1 →
             ∃ v, get m' i j = Some v ∧ (v = 0 ∨ v = 1) ∧
                  (v = 1 ↔
                   Double.geb
                     (Double.div
                        (Double.of_int (window_count [[0]] 1 1 23170 0 0))
                        (Double.of_int ((2 * 23170 + 1) * (2 * 23170 + 1))))
                     Double.one = true)).
Proof.
  assert (Hwf : wf_grid 1 1 [[0]]) by (split; [reflexivity|repeat constructor]).
  assert (Hbin : binary_grid [[0]]) by (repeat constructor; by left).
  assert (Hsum : bit0_sum [[0]] 1 1 23170 0 0 = 2147488280)
    by (rewrite bit0_sum_single_empty by lia; reflexivity).
  assert (Hwc : window_count [[0]] 1 1 23170 0 0 = 2147488280)
    by (rewrite <- (bit0_sum_binary 1 1) by assumption; exact Hsum).
  assert (Hcount : bit0_count [[0]] 1 1 23170 0 0 = -2147479016)
    by (rewrite bit0_count_wrap, Hsum; reflexivity).
  assert (Htotal : (2 * 23170 + 1) * (2 * 23170 + 1) = 2147488281)
    by reflexivity.
  assert (Hratio : Double.geb
            (Double.div (Double.of_int 2147488280) (Double.of_int 2147488281))
            Double.one = false) by (vm_compute; reflexivity).
  assert (Hnew : new_value 23170 Double.one (-2147479016) = 1)
    by (vm_compute; reflexivity).
  destruct (cellularAutomata_cells 1 1 23170 Double.one [[0]])
    as (m0 & Hrun & _ & Hcells); [lia|lia|assumption|].
  assert (Hcell : get m0 0 0 = Some 1).
  { rewrite Hcells by lia. unfold cell_out, cell_staged.
    rewrite commit_staged_binary;
      [|left; reflexivity|apply new_value_cases].
    by rewrite Hcount, Hnew. }
  split; [exact Hwf|]. split; [exact Hbin|]. split; [exact Hwc|].
  split; [exact Htotal|]. split; [exact Hratio|].
  split; [rewrite (neighbor_count_bit0 1 1) by assumption; by rewrite Hcount|].
  split; [exact Hnew|].
  split; [exists m0; split; assumption|].
  intros (m' & Hrun' & _ & Hclaim).
  rewrite Hrun in Hrun'. injection Hrun' as <-.
  destruct (Hclaim 0 0) as (v & Hget & _ & Hiff); [lia|lia|].
  rewrite Hcell in Hget. injection Hget as <-.
  rewrite Hwc, Htotal, Hratio in Hiff.
  destruct Hiff as [Hiff _]. specialize (Hiff eq_refl). discriminate Hiff.
Qed.

(** C1, amended. On a map of [H] rows of [W] cells that are all 0 or 1, with
    [W, H >= 1], [R >= 0] and a window size [(2R+1)^2] that fits an [int]
    (that is, [R <= 23169]), [cellularAutomata] returns a map of the same
    dimensions in which cell [(i, j)] is 1 exactly when
    [count / (2R+1)^2 >= U], the quotient and the comparison being those of
    [double], and is 0 otherwise; [count] is the number of window
    coordinates that are outside the grid or occupied in the input map: no
    read sees a value staged by the pass for another cell. *)
Theorem cellularAutomata_synchronous (m : Map) (W H R : Z) (U : double) :
  1 ≤ W → 1 ≤ H → 0 ≤ R → (2 * R + 1) * (2 * R + 1) < 2 ^ 31 →
  wf_grid W H m → binary_grid m →
  ∃ m', cellularAutomata m W H R U = Some m' ∧ wf_grid W H m' ∧
        ∀ i j, 0 ≤ i < H → 0 ≤ j < W →
          ∃ v, get m' i j = Some v ∧ (v = 0 ∨ v = 1) ∧
               (v = 1 ↔
                Double.geb
                  (Double.div (Double.of_int (window_count m W H R i j))
                     (Double.of_int ((2 * R + 1) * (2 * R + 1)))) U = true).
Proof.
  intros HW HH HR Htotal Hwf Hbin.
  destruct (cellularAutomata_cells W H R U m) as (m' & Hrun & Hwf' & Hcells);
    [lia|lia|done|].
  exists m'. split; [done|]. split; [done|]. intros i j Hi Hj.
  exists (cell_out m W H R U i j). split; [by apply Hcells|].
  unfold cell_out, cell_staged.
  rewrite commit_staged_binary.
  - rewrite bit0_count_sum, (bit0_sum_binary W H) by done.
    unfold new_value. rewrite total_fits by done.
    destruct (Double.geb _ U); (split; [auto|]); split; done.
  - eapply binary_grid_get; [done|]. by apply (get_cell_in W H).
  - apply new_value_cases.
Qed.

Lemma cellularAutomata_synchronous_witness :
  ∃ m', cellularAutomata [[0; 1; 1]; [1; 0; 1]] 3 2 1 Double.lit_0_5 = Some m' ∧
        wf_grid 3 2 m' ∧
        ∀ i j, 0 ≤ i < 2 → 0 ≤ j < 3 →
          ∃ v, get m' i j = Some v ∧ (v = 0 ∨ v = 1) ∧
               (v = 1 ↔
                Double.geb
                  (Double.div
                     (Double.of_int (window_count [[0; 1; 1]; [1; 0; 1]] 3 2 1 i j))
                     (Double.of_int ((2 * 1 + 1) * (2 * 1 + 1))))
                  Double.lit_0_5 = true).
Proof.
  apply cellularAutomata_synchronous; [lia|lia|lia|by vm_compute| |].
  - split; [reflexivity|]. repeat constructor.
  - repeat (constructor; try (by left); try (by right)).
Defined.

(** C9. On a map of [H] rows of [W] cells that hold any integers,
    [cellularAutomata] returns a map whose cells are all 0 or 1.  The
    window loops return the count of the coordinates outside the grid plus
    bit 0 of each cell inside, and the second pass leaves in each cell bit 1
    of what the first pass left there. *)
Theorem cellularAutomata_binary_output (m : Map) (W H R : Z) (U : double) :
  0 ≤ W → wf_grid W H m →
  ∃ m', cellularAutomata m W H R U = Some m' ∧ wf_grid W H m' ∧
        ∀ i j, 0 ≤ i < H → 0 ≤ j < W →
          ∃ x v, get m i j = Some x ∧ get m' i j = Some v ∧ (v = 0 ∨ v = 1) ∧
                 neighbor_count m W H R i j = Some (bit0_count m W H R i j) ∧
                 v = Z.land
                       (Z.shiftr
                          (Z.lor x
                             (Z.shiftl (new_value R U (bit0_count m W H R i j)) 1))
                          1) 1.
Proof.
  intros HW Hwf.
  assert (HH : 0 ≤ H) by (destruct Hwf as [<- _]; lia).
  destruct (cellularAutomata_cells W H R U m HW HH Hwf) as (m' & Hrun & Hwf' & Hcells).
  exists m'. split; [done|]. split; [done|]. intros i j Hi Hj.
  exists (cell_in m i j), (cell_out m W H R U i j).
  split; [by apply (get_cell_in W H)|]. split; [by apply Hcells|].
  split; [apply land_1_cases|]. split; [by apply neighbor_count_bit0|done].
Qed.

Lemma cellularAutomata_binary_output_witness :
  ∃ m', cellularAutomata [[7; -2]; [4; 5]] 2 2 1 Double.lit_0_5 = Some m' ∧
        wf_grid 2 2 m' ∧
        ∀ i j, 0 ≤ i < 2 → 0 ≤ j < 2 →
          ∃ x v, get [[7; -2]; [4; 5]] i j = Some x ∧ get m' i j = Some v ∧
                 (v = 0 ∨ v = 1) ∧
                 neighbor_count [[7; -2]; [4; 5]] 2 2 1 i j
                 = Some (bit0_count [[7; -2]; [4; 5]] 2 2 1 i j) ∧
                 v = Z.land
                       (Z.shiftr
                          (Z.lor x
                             (Z.shiftl
                                (new_value 1 Double.lit_0_5
                                   (bit0_count [[7; -2]; [4; 5]] 2 2 1 i j)) 1))
                          1) 1.
Proof.
  apply cellularAutomata_binary_output; [lia|].
  split; [reflexivity|]. repeat constructor.
Defined.

(** C7, as stated, fails: on the 3 x 3 grid with [R = 1] the centre cell has
    all 9 window coordinates inside the grid and none outside, so not every
    cell has at least 4 window coordinates outside the grid. *)
Lemma ca_centre_window_inside :
  window_inside 3 3 1 1 1 = 9 ∧ window_outside 3 3 1 1 1 = 0 ∧
  neighbor_count (empty_grid 3 3) 3 3 1 1 1 = Some 0 ∧
  ¬ (∀ i j, 0 ≤ i < 3 → 0 ≤ j < 3 →
            window_inside 3 3 1 i j - 1 ≤ 5 ∧ 4 ≤ window_outside 3 3 1 i j).
Proof.
  split; [reflexivity|]. split; [reflexivity|]. split; [reflexivity|].
  intros Hall. destruct (Hall 1 1) as [_ Hout]; [lia|lia|].
  vm_compute in Hout. by apply Hout.
Qed.

(** C7, amended. On the all-empty 3 x 3 grid with [R = 1] and [U = 0.5] the
    corner cell has 4 window coordinates inside the grid and 5 outside (an
    edge cell has 6 and 3, the centre cell 9 and 0); its count is 5, the
    [double] 5/9 is at least 0.5, and after one step the corner cell is
    occupied although no cell of the input was. *)
Theorem ca_boundary_bias :
  window_inside 3 3 1 0 0 = 4 ∧ window_outside 3 3 1 0 0 = 5 ∧
  window_inside 3 3 1 0 1 = 6 ∧ window_outside 3 3 1 0 1 = 3 ∧
  window_inside 3 3 1 1 1 = 9 ∧ window_outside 3 3 1 1 1 = 0 ∧
  occupied_count (empty_grid 3 3) = 0 ∧
  neighbor_count (empty_grid 3 3) 3 3 1 0 0 = Some 5 ∧
  Double.geb (Double.div (Double.of_int 5) (Double.of_int 9)) Double.lit_0_5 = true ∧
  ∃ m', cellularAutomata (empty_grid 3 3) 3 3 1 Double.lit_0_5 = Some m' ∧
        m' = [[1; 0; 1]; [0; 0; 0]; [1; 0; 1]] ∧
        occupied m' 0 0.
Proof.
  repeat (split; [reflexivity|]).
  eexists. split; [vm_compute; reflexivity|]. split; reflexivity.
Qed.

(** ** Properties of [drunkAgent] *)

(** The states a call passes through: the state after [j] walks and [k]
    more steps is on the way to the final state. *)
Lemma for_loop_const_lo {S} n lo lo' (f : S → option S) s :
  for_loop n lo (λ _, f) s = for_loop n lo' (λ _, f) s.
Proof.
  revert lo lo' s. induction n as [|n IH]; intros lo lo' s; [done|].
  simpl. destruct (f s) as [t|]; [|done]. simpl. apply IH.
Qed.

Lemma for_range_const_split {S} (f : S → option S) n k s :
  0 ≤ k ≤ n →
  for_range 0 n (λ _, f) s
  = for_range 0 k (λ _, f) s ≫= for_range 0 (n - k) (λ _, f).
Proof.
  intros Hk. unfold for_range.
  replace (Z.to_nat (n - 0)) with (Z.to_nat (k - 0) + Z.to_nat (n - k - 0))%nat by lia.
  rewrite for_loop_add. destruct (for_loop (Z.to_nat (k - 0)) 0 (λ _, f) s); [|done].
  simpl. apply for_loop_const_lo.
Qed.

Lemma for_range_const_one {S} (f : S → option S) s :
  for_range 0 1 (λ _, f) s = f s.
Proof. unfold for_range. simpl. by destruct (f s). Qed.

Lemma steps_split {rng : Type} {RS : RandomSource rng} W H I
    probIncreaseChange (s : agent rng) k :
  0 ≤ k ≤ I →
  steps W H I probIncreaseChange s
  = steps W H k probIncreaseChange s ≫= steps W H (I - k) probIncreaseChange.
Proof. intros Hk. unfold steps. by apply for_range_const_split. Qed.

Lemma walks_split {rng : Type} {RS : RandomSource rng} W H J I roomSizeX roomSizeY
    probIncreaseRoom probIncreaseChange (s : agent rng) j :
  0 ≤ j ≤ J →
  walks W H J I roomSizeX roomSizeY probIncreaseRoom probIncreaseChange s
  = walks W H j I roomSizeX roomSizeY probIncreaseRoom probIncreaseChange s
    ≫= walks W H (J - j) I roomSizeX roomSizeY probIncreaseRoom probIncreaseChange.
Proof. intros Hj. unfold walks. by apply for_range_const_split. Qed.

Lemma walks_one {rng : Type} {RS : RandomSource rng} W H I roomSizeX roomSizeY
    probIncreaseRoom probIncreaseChange (s : agent rng) :
  walks W H 1 I roomSizeX roomSizeY probIncreaseRoom probIncreaseChange s
  = walk W H I roomSizeX roomSizeY probIncreaseRoom probIncreaseChange s.
Proof. unfold walks. apply for_range_const_one. Qed.

Lemma walks_zero {rng : Type} {RS : RandomSource rng} W H I roomSizeX roomSizeY
    probIncreaseRoom probIncreaseChange (s : agent rng) :
  walks W H 0 I roomSizeX roomSizeY probIncreaseRoom probIncreaseChange s = Some s.
Proof. unfold walks. by apply for_range_empty. Qed.

Lemma steps_one {rng : Type} {RS : RandomSource rng} W H
    probIncreaseChange (s : agent rng) :
  steps W H 1 probIncreaseChange s = inner_step W H probIncreaseChange s.
Proof. unfold steps. apply for_range_const_one. Qed.

Lemma walks_through {rng : Type} {RS : RandomSource rng} W H J I roomSizeX roomSizeY
    probIncreaseRoom probIncreaseChange (s0 : agent rng) j k :
  0 ≤ j < J → 0 ≤ k ≤ I →
  walks W H J I roomSizeX roomSizeY probIncreaseRoom probIncreaseChange s0
  = (walks W H j I roomSizeX roomSizeY probIncreaseRoom probIncreaseChange s0
       ≫= steps W H k probIncreaseChange)
    ≫= λ s, (steps W H (I - k) probIncreaseChange s
               ≫= room_decision W H roomSizeX roomSizeY probIncreaseRoom)
            ≫= walks W H (J - j - 1) I roomSizeX roomSizeY
                 probIncreaseRoom probIncreaseChange.
Proof.
  intros Hj Hk. rewrite (walks_split W H J _ _ _ _ _ _ j) by lia.
  destruct (walks W H j I roomSizeX roomSizeY probIncreaseRoom
              probIncreaseChange s0) as [sj|]; [|done]. simpl.
  rewrite (walks_split W H (J - j) _ _ _ _ _ _ 1) by lia.
  rewrite walks_one. unfold walk.
  rewrite (steps_split W H I _ sj k) by lia.
  destruct (steps W H k probIncreaseChange sj) as [s|]; [|done]. simpl.
  destruct (steps W H (I - k) probIncreaseChange s) as [s1|]; [|done]. simpl.
  done.
Qed.

Lemma drunkAgent_calls_inv {rng : Type} {RS : RandomSource rng} W H (cs : list (call rng)) m x y :
  wf_grid W H m →
  ∃ m' x' y', drunkAgent_calls W H cs m x y = Some (m', x', y') ∧
              wf_grid W H m' ∧ grows m m'.
Proof.
  revert m x y. induction cs as [|c cs IH]; intros m x y Hwf.
  - exists m, x, y. split; [done|]. split; [done|apply grows_refl].
  - simpl.
    destruct (drunkAgent_inv m W H (call_J c) (call_I c)
                (call_roomSizeX c) (call_roomSizeY c)
                (call_probGenerateRoom c) (call_probIncreaseRoom c)
                (call_probChangeDirection c) (call_probIncreaseChange c)
                x y (call_seed c) Hwf) as (m1 & x1 & y1 & -> & Hwf1 & Hg1 & _).
    simpl. destruct (IH m1 x1 y1 Hwf1) as (m' & x' & y' & -> & Hwf' & Hg').
    exists m', x', y'. split; [done|]. split; [done|].
    by eapply grows_trans.
Qed.

(** ** The first mark of a call *)

Lemma occupied_count_pos m a b : occupied m a b → 0 < occupied_count m.
Proof.
  unfold occupied, get, occupied_count. intros Hget.
  destruct ((0 <=? a) && (0 <=? b)); [|done].
  destruct (m !! Z.to_nat a) as [row|] eqn:Hrow; [|done]. simpl in Hget.
  assert (Hin : 1 ∈ filter (λ x, x ≠ 0) (concat m)).
  { apply list_elem_of_filter. split; [done|].
    apply list_elem_of_In, in_concat. exists row.
    split; apply list_elem_of_In; by eapply list_elem_of_lookup_2. }
  destruct (filter _ _); [by apply not_elem_of_nil in Hin|simpl; lia].
Qed.

(** With at least one walk of at least one step, a call that starts inside
    the grid marks its starting cell, so its result has an occupied cell. *)
Lemma drunkAgent_marks_start {rng : Type} {RS : RandomSource rng} m
    W H J I roomSizeX roomSizeY probGenerateRoom probIncreaseRoom
    probChangeDirection probIncreaseChange x y (seed : rng) :
  1 ≤ J → 1 ≤ I → wf_grid W H m → 0 ≤ x < H → 0 ≤ y < W →
  ∃ m' x' y',
    drunkAgent m W H J I roomSizeX roomSizeY probGenerateRoom probIncreaseRoom
      probChangeDirection probIncreaseChange x y seed = Some (m', x', y') ∧
    occupied m' x y ∧ 0 < occupied_count m'.
Proof.
  intros HJ HI Hwf Hx Hy. unfold drunkAgent.
  rewrite (walks_through W H J I _ _ _ _ _ 0 1) by lia.
  rewrite walks_zero. simpl. rewrite steps_one.
  set (s0 := initial_agent m probGenerateRoom probChangeDirection x y seed).
  destruct (inner_step_spec W H probIncreaseChange s0 Hwf)
    as (s1 & -> & Hwf1 & Hp1 & _). simpl.
  assert (Hocc : occupied (newMap s1) x y).
  { apply (Hp1 x y). split; [|done]. by apply in_grid_spec. }
  assert (Hinv : agent_inv W H (newMap s1) (-1) 0 s1).
  { split; [done|]. split; [apply grows_refl|]. intros Hin.
    apply in_grid_spec in Hin. lia. }
  destruct (steps_inv W H (I - 1) probIncreaseChange _ _ _ _ Hinv)
    as (s2 & -> & Hinv2). simpl.
  destruct (room_decision_inv W H roomSizeX roomSizeY probIncreaseRoom
              _ _ _ _ Hinv2) as (s3 & -> & Hinv3). simpl.
  destruct (walks_inv W H (J - 0 - 1) I roomSizeX roomSizeY probIncreaseRoom
              probIncreaseChange _ _ _ _ Hinv3) as (s4 & -> & _ & Hg & _).
  simpl. exists (newMap s4), (agentX s4), (agentY s4). split; [done|].
  assert (Hocc4 : occupied (newMap s4) x y) by (by eapply grows_occupied).
  split; [done|]. by eapply occupied_count_pos.
Qed.

(** C4. On a map of [H] rows of [W] cells, whatever the parameters and the
    random draws, the map a call of [drunkAgent] returns has every cell as
    in the input or set to 1, so every cell occupied in the input is
    occupied in the result; the same holds from the first map to the last
    of any sequence of calls. *)
Theorem drunkAgent_never_clears {rng : Type} {RS : RandomSource rng} (m : Map) (W H : Z) :
  wf_grid W H m →
  (∀ J I roomSizeX roomSizeY probGenerateRoom probIncreaseRoom
     probChangeDirection probIncreaseChange x y (seed : rng),
     ∃ m' x' y',
       drunkAgent m W H J I roomSizeX roomSizeY probGenerateRoom
         probIncreaseRoom probChangeDirection probIncreaseChange x y seed
       = Some (m', x', y') ∧
       grows m m' ∧ ∀ a b, occupied m a b → occupied m' a b) ∧
  (∀ (cs : list (call rng)) x y,
     ∃ m' x' y',
       drunkAgent_calls W H cs m x y = Some (m', x', y') ∧
       grows m m' ∧ ∀ a b, occupied m a b → occupied m' a b).
Proof.
  intros Hwf. split.
  - intros J I roomSizeX roomSizeY probGenerateRoom probIncreaseRoom
      probChangeDirection probIncreaseChange x y seed.
    destruct (drunkAgent_inv m W H J I roomSizeX roomSizeY probGenerateRoom
                probIncreaseRoom probChangeDirection probIncreaseChange
                x y seed Hwf) as (m' & x' & y' & Hrun & _ & Hg & _).
    exists m', x', y'. split; [done|]. split; [done|].
    intros a b. by apply grows_occupied.
  - intros cs x y.
    destruct (drunkAgent_calls_inv W H cs m x y Hwf) as (m' & x' & y' & Hrun & _ & Hg).
    exists m', x', y'. split; [done|]. split; [done|].
    intros a b. by apply grows_occupied.
Qed.

Lemma drunkAgent_never_clears_witness :
  wf_grid 3 2 [[0; 1; 0]; [1; 0; 0]] ∧
  (∀ J I roomSizeX roomSizeY probGenerateRoom probIncreaseRoom
     probChangeDirection probIncreaseChange x y (seed : list Z),
     ∃ m' x' y',
       drunkAgent [[0; 1; 0]; [1; 0; 0]] 3 2 J I roomSizeX roomSizeY
         probGenerateRoom probIncreaseRoom probChangeDirection
         probIncreaseChange x y seed = Some (m', x', y') ∧
       grows [[0; 1; 0]; [1; 0; 0]] m' ∧
       ∀ a b, occupied [[0; 1; 0]; [1; 0; 0]] a b → occupied m' a b) ∧
  (∀ (cs : list (call (list Z))) x y,
     ∃ m' x' y',
       drunkAgent_calls 3 2 cs [[0; 1; 0]; [1; 0; 0]] x y = Some (m', x', y') ∧
       grows [[0; 1; 0]; [1; 0; 0]] m' ∧
       ∀ a b, occupied [[0; 1; 0]; [1; 0; 0]] a b → occupied m' a b).
Proof.
  assert (Hwf : wf_grid 3 2 [[0; 1; 0]; [1; 0; 0]])
    by (split; [reflexivity|repeat constructor]).
  split; [exact Hwf|].
  exact (drunkAgent_never_clears [[0; 1; 0]; [1; 0; 0]] 3 2 Hwf).
Defined.

(** C5. With [J, I >= 1] and [W, H >= 1], on a map of [H] rows of [W]
    cells and from a position inside the grid, the agent is inside the grid
    after every inner step (after [j < J] walks and [k <= I] more steps) and
    at the end of the call, whatever the random draws. *)
Theorem agent_stays_in_grid {rng : Type} {RS : RandomSource rng} (m : Map)
    (W H J I roomSizeX roomSizeY : Z)
    (probGenerateRoom probIncreaseRoom : double)
    (probChangeDirection probIncreaseChange : double)
    (x y : Z) (seed : rng) :
  1 ≤ J → 1 ≤ I → 1 ≤ W → 1 ≤ H → wf_grid W H m →
  0 ≤ x < H → 0 ≤ y < W →
  (∀ j k, 0 ≤ j < J → 0 ≤ k ≤ I →
     ∃ s, walks W H j I roomSizeX roomSizeY probIncreaseRoom probIncreaseChange
            (initial_agent m probGenerateRoom probChangeDirection x y seed)
          ≫= steps W H k probIncreaseChange = Some s ∧
          walks W H J I roomSizeX roomSizeY probIncreaseRoom probIncreaseChange
            (initial_agent m probGenerateRoom probChangeDirection x y seed)
          = (steps W H (I - k) probIncreaseChange s
               ≫= room_decision W H roomSizeX roomSizeY probIncreaseRoom)
            ≫= walks W H (J - j - 1) I roomSizeX roomSizeY
                 probIncreaseRoom probIncreaseChange ∧
          0 ≤ agentX s < H ∧ 0 ≤ agentY s < W) ∧
  ∃ m' x' y',
    drunkAgent m W H J I roomSizeX roomSizeY probGenerateRoom probIncreaseRoom
      probChangeDirection probIncreaseChange x y seed = Some (m', x', y') ∧
    0 ≤ x' < H ∧ 0 ≤ y' < W.
Proof.
  intros HJ HI HW HH Hwf Hx Hy.
  assert (Hin : in_grid W H x y = true) by (by apply in_grid_spec).
  split.
  - intros j k Hj Hk.
    rewrite (walks_through W H J I _ _ _ _ _ j k) by done.
    destruct (walks_inv W H j I roomSizeX roomSizeY probIncreaseRoom
                probIncreaseChange m x y _
                (initial_agent_inv W H m probGenerateRoom probChangeDirection
                   x y seed Hwf)) as (sj & -> & Hsj).
    simpl.
    destruct (steps_inv W H k probIncreaseChange m x y sj Hsj)
      as (s & -> & _ & _ & Hs).
    exists s. split; [done|]. split; [done|]. apply in_grid_spec. auto.
  - destruct (drunkAgent_inv m W H J I roomSizeX roomSizeY probGenerateRoom
                probIncreaseRoom probChangeDirection probIncreaseChange
                x y seed Hwf) as (m' & x' & y' & Hrun & _ & _ & Hin').
    exists m', x', y'. split; [done|]. apply in_grid_spec. auto.
Qed.

Lemma agent_stays_in_grid_witness :
  (∀ j k, 0 ≤ j < 2 → 0 ≤ k ≤ 3 →
     ∃ s, walks 3 3 j 3 3 3 Double.lit_0_1 Double.lit_0_1
            (initial_agent (empty_grid 3 3) Double.lit_0_1 Double.lit_0_2
               1 1 [2; 5; 0; 7])
          ≫= steps 3 3 k Double.lit_0_1 = Some s ∧
          walks 3 3 2 3 3 3 Double.lit_0_1 Double.lit_0_1
            (initial_agent (empty_grid 3 3) Double.lit_0_1 Double.lit_0_2
               1 1 [2; 5; 0; 7])
          = (steps 3 3 (3 - k) Double.lit_0_1 s
               ≫= room_decision 3 3 3 3 Double.lit_0_1)
            ≫= walks 3 3 (2 - j - 1) 3 3 3 Double.lit_0_1 Double.lit_0_1 ∧
          0 ≤ agentX s < 3 ∧ 0 ≤ agentY s < 3) ∧
  ∃ m' x' y',
    drunkAgent (empty_grid 3 3) 3 3 2 3 3 3 Double.lit_0_1 Double.lit_0_1
      Double.lit_0_2 Double.lit_0_1 1 1 [2; 5; 0; 7] = Some (m', x', y') ∧
    0 ≤ x' < 3 ∧ 0 ≤ y' < 3.
Proof.
  apply agent_stays_in_grid; [lia|lia|lia|lia| |lia|lia].
  apply wf_grid_empty; lia.
Defined.

(** C6. In a step whose candidate position is outside the grid, the agent
    stays where it is; the new heading is [new_heading] of one draw of
    [dirDist], a cardinal heading, and the draws 0, 1, 2, 3 give the four
    cardinal headings one for one, so a uniform draw gives a uniform
    heading; [chance] is not drawn, and [probChangeDirection] is left as it
    was. *)
Theorem wall_bounce {rng : Type} {RS : RandomSource rng} (W H : Z)
    (probIncreaseChange : double) (s : agent rng) :
  wf_grid W H (newMap s) →
  in_grid W H (agentX s + dx s) (agentY s + dy s) = false →
  ∃ s', inner_step W H probIncreaseChange s = Some s' ∧
        agentX s' = agentX s ∧ agentY s' = agentY s ∧
        (dx s', dy s') = new_heading (dirDist (gen s)).1 ∧
        (dx s', dy s') ∈ cardinal_headings ∧
        gen s' = (dirDist (gen s)).2 ∧
        probChangeDirection s' = probChangeDirection s ∧
        probGenerateRoom s' = probGenerateRoom s ∧
        new_heading <$> [0; 1; 2; 3] = cardinal_headings ∧
        NoDup cardinal_headings.
Proof.
  intros Hwf Hout. unfold inner_step.
  destruct (mark_spec W H (newMap s) (agentX s) (agentY s) Hwf)
    as (m' & -> & _ & _). simpl. rewrite Hout.
  pose proof (dirDist_range (gen s)) as Hdir.
  destruct (dirDist (gen s)) as [dir g1]. simpl in *.
  eexists. split; [reflexivity|]. simpl.
  repeat (split; [done|]). split.
  - assert (Hd : dir = 0 ∨ dir = 1 ∨ dir = 2 ∨ dir = 3) by lia.
    unfold cardinal_headings.
    destruct Hd as [-> | [-> | [-> | ->]]]; simpl; repeat constructor.
  - repeat (split; [done|]). unfold cardinal_headings.
    repeat (apply NoDup_cons; split;
            [rewrite ?not_elem_of_cons; repeat split;
             [discriminate..|apply not_elem_of_nil]|]).
    apply NoDup_nil_2.
Qed.

Lemma wall_bounce_witness :
  ∃ s', inner_step 3 3 Double.lit_0_1
          (Agent (empty_grid 3 3) 0 2 0 1 Double.lit_0_1 Double.lit_0_2 [6; 1])
        = Some s' ∧
        agentX s' = 0 ∧ agentY s' = 2 ∧
        (dx s', dy s') = new_heading (script_dirDist [6; 1]).1 ∧
        (dx s', dy s') ∈ cardinal_headings ∧
        gen s' = (script_dirDist [6; 1]).2 ∧
        probChangeDirection s' = Double.lit_0_2 ∧
        probGenerateRoom s' = Double.lit_0_1 ∧
        new_heading <$> [0; 1; 2; 3] = cardinal_headings ∧
        NoDup cardinal_headings.
Proof.
  assert (Hwf : wf_grid 3 3 (empty_grid 3 3)) by (apply wf_grid_empty; lia).
  exact (wall_bounce 3 3 Double.lit_0_1
           (Agent (empty_grid 3 3) 0 2 0 1 Double.lit_0_1 Double.lit_0_2 [6; 1])
           Hwf eq_refl).
Defined.




(** ** Counting the marks of a call *)

Lemma filter_insert_length (P : Z → Prop) `{!∀ x, Decision (P x)}
    (l : list Z) (j : nat) (v : Z) :
  (length (filter P (<[j:=v]> l)) ≤ length (filter P l) + 1)%nat.
Proof.
  revert j. induction l as [|x l IH]; intros j; [simpl; lia|].
  destruct j as [|j]; simpl.
  - rewrite !filter_cons. destruct (decide (P v)), (decide (P x)); simpl; lia.
  - rewrite !filter_cons. specialize (IH j).
    destruct (decide (P x)); simpl; lia.
Qed.

Lemma filter_concat_insert_length (P : Z → Prop) `{!∀ x, Decision (P x)}
    (m : Map) (i j : nat) (v : Z) (row : list Z) :
  m !! i = Some row →
  (length (filter P (concat (<[i:=<[j:=v]> row]> m)))
   ≤ length (filter P (concat m)) + 1)%nat.
Proof.
  revert i. induction m as [|r m IH]; intros i Hi; [done|].
  destruct i as [|i]; simpl in *.
  - injection Hi as ->. rewrite !filter_app, !length_app.
    pose proof (filter_insert_length P row j v). lia.
  - rewrite !filter_app, !length_app. specialize (IH i Hi). lia.
Qed.

(** A write adds at most one occupied cell. *)
Lemma set_occupied_count m i j v m' :
  set m i j v = Some m' → occupied_count m' ≤ occupied_count m + 1.
Proof.
  unfold set, occupied_count. destruct ((0 <=? i) && (0 <=? j)); [|done].
  destruct (m !! Z.to_nat i) as [row|] eqn:Hrow; [|done]. simpl.
  destruct (decide (Z.to_nat j < length row)%nat); [|done]. intros [= <-].
  pose proof (filter_concat_insert_length (λ x, x ≠ 0) m (Z.to_nat i)
                (Z.to_nat j) v row Hrow). lia.
Qed.

Lemma mark_occupied_count W H m x y m' :
  mark W H m x y = Some m' → occupied_count m' ≤ occupied_count m + 1.
Proof.
  unfold mark. destruct (in_grid W H x y).
  - apply set_occupied_count.
  - intros [= <-]. lia.
Qed.

(** A loop whose iterations each add at most [k] to a measure adds at most
    [k] times the number of its iterations. *)
Lemma for_range_bounded {S} (size : S → Z) (k : Z) lo hi (body : Z → S → option S) s s' :
  0 ≤ k →
  (∀ x t t', body x t = Some t' → size t' ≤ size t + k) →
  for_range lo hi body s = Some s' →
  size s' ≤ size s + Z.max 0 (hi - lo) * k.
Proof.
  intros Hk Hbody. unfold for_range.
  replace (Z.max 0 (hi - lo)) with (Z.of_nat (Z.to_nat (hi - lo))) by lia.
  generalize (Z.to_nat (hi - lo)) as n. intros n. revert lo s.
  induction n as [|n IH]; intros lo s; simpl.
  - intros [= <-]. lia.
  - destruct (body lo s) as [t|] eqn:Ht; [|done]. simpl. intros Hrun.
    specialize (IH _ _ Hrun). specialize (Hbody _ _ _ Ht). nia.
Qed.

Lemma stamp_room_occupied_count W H roomSizeX roomSizeY m x y m' :
  0 ≤ roomSizeX → 0 ≤ roomSizeY →
  stamp_room W H roomSizeX roomSizeY m x y = Some m' →
  occupied_count m'
  ≤ occupied_count m + (2 * (roomSizeX ÷ 2) + 1) * (2 * (roomSizeY ÷ 2) + 1).
Proof.
  intros HX HY. unfold stamp_room.
  pose proof (Z.quot_pos roomSizeX 2 HX eq_refl) as HhX.
  pose proof (Z.quot_pos roomSizeY 2 HY eq_refl) as HhY.
  set (hX := roomSizeX ÷ 2) in *. set (hY := roomSizeY ÷ 2) in *.
  intros Hrun.
  apply (for_range_bounded occupied_count (2 * hY + 1)) in Hrun; [lia|lia|].
  intros d t t' Hinner.
  apply (for_range_bounded occupied_count 1) in Hinner; [lia|lia|].
  intros e u u'. apply mark_occupied_count.
Qed.

Section marks.
Context {rng : Type} {RS : RandomSource rng}.

Lemma inner_step_occupied_count W H probIncreaseChange (s s' : agent rng) :
  inner_step W H probIncreaseChange s = Some s' →
  occupied_count (newMap s') ≤ occupied_count (newMap s) + 1.
Proof.
  unfold inner_step.
  destruct (mark W H (newMap s) (agentX s) (agentY s)) as [m'|] eqn:Hmark; [|done].
  apply mark_occupied_count in Hmark. simpl.
  destruct (in_grid W H (agentX s + dx s) (agentY s + dy s)).
  - destruct (chance (gen s)) as [c g1].
    destruct (Double.ltb c (probChangeDirection s)).
    + destruct (dirDist g1). by intros [= <-].
    + by intros [= <-].
  - destruct (dirDist (gen s)). by intros [= <-].
Qed.

Lemma room_decision_occupied_count W H roomSizeX roomSizeY probIncreaseRoom
    (s s' : agent rng) :
  0 ≤ roomSizeX → 0 ≤ roomSizeY →
  room_decision W H roomSizeX roomSizeY probIncreaseRoom s = Some s' →
  occupied_count (newMap s')
  ≤ occupied_count (newMap s)
    + (2 * (roomSizeX ÷ 2) + 1) * (2 * (roomSizeY ÷ 2) + 1).
Proof.
  intros HX HY. unfold room_decision.
  pose proof (Z.quot_pos roomSizeX 2 HX eq_refl).
  pose proof (Z.quot_pos roomSizeY 2 HY eq_refl).
  destruct (chance (gen s)) as [c g1].
  destruct (Double.ltb c (probGenerateRoom s)).
  - destruct (stamp_room _ _ _ _ _ _ _) as [m'|] eqn:Hstamp; [|done].
    apply stamp_room_occupied_count in Hstamp; [|done..]. by intros [= <-].
  - intros [= <-]. simpl. nia.
Qed.

(** The bound that holds: [J * I] marks of steps and [J] rooms of
    [(2 * (roomSizeX / 2) + 1) * (2 * (roomSizeY / 2) + 1)] cells. *)
Lemma drunkAgent_occupied_count m W H J I roomSizeX roomSizeY
    probGenerateRoom probIncreaseRoom probChangeDirection probIncreaseChange
    x y (seed : rng) m' x' y' :
  0 ≤ J → 0 ≤ I → 0 ≤ roomSizeX → 0 ≤ roomSizeY →
  drunkAgent m W H J I roomSizeX roomSizeY probGenerateRoom probIncreaseRoom
    probChangeDirection probIncreaseChange x y seed = Some (m', x', y') →
  occupied_count m'
  ≤ occupied_count m
    + J * I + J * ((2 * (roomSizeX ÷ 2) + 1) * (2 * (roomSizeY ÷ 2) + 1)).
Proof.
  intros HJ HI HX HY. unfold drunkAgent.
  destruct (walks _ _ _ _ _ _ _ _ _) as [s|] eqn:Hwalks; [|done].
  intros [= <- _ _].
  pose proof (Z.quot_pos roomSizeX 2 HX eq_refl) as HhX.
  pose proof (Z.quot_pos roomSizeY 2 HY eq_refl) as HhY.
  set (room := (2 * (roomSizeX ÷ 2) + 1) * (2 * (roomSizeY ÷ 2) + 1)) in *.
  assert (Hroom : 0 ≤ room) by (unfold room; nia).
  unfold walks in Hwalks.
  apply (for_range_bounded (λ s, occupied_count (newMap s)) (I + room)) in Hwalks;
    [simpl in Hwalks; nia|lia|].
  intros _ t t'. unfold walk.
  destruct (steps W H I probIncreaseChange t) as [t1|] eqn:Hsteps; [|done].
  simpl. intros Hroomd.
  apply room_decision_occupied_count in Hroomd; [|done..].
  unfold steps in Hsteps.
  apply (for_range_bounded (λ s, occupied_count (newMap s)) 1) in Hsteps;
    [fold room in Hroomd; lia|lia|].
  intros _ u u'. apply inner_step_occupied_count.
Qed.

(** With odd room sizes the rooms have [roomSizeX * roomSizeY] cells. *)
Lemma drunkAgent_occupied_count_odd m W H J I roomSizeX roomSizeY
    probGenerateRoom probIncreaseRoom probChangeDirection probIncreaseChange
    x y (seed : rng) m' x' y' :
  0 ≤ J → 0 ≤ I → 0 ≤ roomSizeX → 0 ≤ roomSizeY →
  Z.rem roomSizeX 2 = 1 → Z.rem roomSizeY 2 = 1 →
  drunkAgent m W H J I roomSizeX roomSizeY probGenerateRoom probIncreaseRoom
    probChangeDirection probIncreaseChange x y seed = Some (m', x', y') →
  occupied_count m' ≤ occupied_count m + J * I + J * roomSizeX * roomSizeY.
Proof.
  intros HJ HI HX HY HoddX HoddY Hrun.
  apply drunkAgent_occupied_count in Hrun; [|done..].
  pose proof (Z.quot_rem' roomSizeX 2) as HqX.
  pose proof (Z.quot_rem' roomSizeY 2) as HqY.
  rewrite HoddX in HqX. rewrite HoddY in HqY.
  rewrite <- HqX, <- HqY in Hrun. lia.
Qed.

End marks.

(** ** Where the code departs from its description *)

(** When the direction change fires, [probChangeDirection] becomes the
    literal 0.2, and when a room is drawn, [probGenerateRoom] becomes the
    literal 0.1, whatever the caller passed. *)
Lemma room_decision_probability {rng : Type} {RS : RandomSource rng}
    W H roomSizeX roomSizeY probIncreaseRoom (s s' : agent rng) :
  room_decision W H roomSizeX roomSizeY probIncreaseRoom s = Some s' →
  probGenerateRoom s' =
    if Double.ltb (chance (gen s)).1 (probGenerateRoom s)
    then Double.lit_0_1
    else Double.add (probGenerateRoom s) probIncreaseRoom.
Proof.
  unfold room_decision. destruct (chance (gen s)) as [c g1]. simpl.
  destruct (Double.ltb c (probGenerateRoom s)).
  - destruct (stamp_room _ _ _ _ _ _ _); [|done]. simpl. by intros [= <-].
  - by intros [= <-].
Qed.

Lemma inner_step_probability {rng : Type} {RS : RandomSource rng}
    W H probIncreaseChange (s s' : agent rng) :
  inner_step W H probIncreaseChange s = Some s' →
  in_grid W H (agentX s + dx s) (agentY s + dy s) = true →
  probChangeDirection s' =
    if Double.ltb (chance (gen s)).1 (probChangeDirection s)
    then Double.lit_0_2
    else Double.add (probChangeDirection s) probIncreaseChange.
Proof.
  unfold inner_step. destruct (mark _ _ _ _ _); [|done]. simpl.
  intros Hrun Hin. rewrite Hin in Hrun.
  destruct (chance (gen s)) as [c g1]. simpl.
  destruct (Double.ltb c (probChangeDirection s)).
  - destruct (dirDist g1). by injection Hrun as <-.
  - by injection Hrun as <-.
Qed.

(** C2 at a failing input. The caller passes 0.5 for both probabilities;
    in one walk of one step the direction change fires and the room is
    drawn, and the call goes on with [probChangeDirection] 0.2 and
    [probGenerateRoom] 0.1, not with the 0.5 that was passed. *)
Theorem reset_ignores_passed_probability :
  ∃ s, walks 3 3 1 1 3 3 lit_0_05 lit_0_03
         (initial_agent (empty_grid 3 3) Double.lit_0_5 Double.lit_0_5 1 1 [0; 2; 0])
       = Some s ∧
       probChangeDirection s = Double.lit_0_2 ∧
       probGenerateRoom s = Double.lit_0_1 ∧
       Double.lit_0_2 ≠ Double.lit_0_5 ∧ Double.lit_0_1 ≠ Double.lit_0_5.
Proof. eexists. split; [vm_compute; reflexivity|]. repeat split; done. Qed.

(** C3 at a failing input, the room of the driver: [roomSizeX = 5],
    [roomSizeY = 3], the agent at (5, 10) on the empty 10 x 20 map.  The
    room covers rows 3 to 7 and columns 9 to 11: five cells along the row
    axis and three along the column axis.  Cell (3, 10) is marked, cell
    (5, 8) is not.  With both sizes 2 the room has 9 cells. *)
Theorem room_extent_swapped :
  stamp_room 20 10 5 3 (empty_grid 20 10) 5 10
  = Some [[0;0;0;0;0;0;0;0;0;0;0;0;0;0;0;0;0;0;0;0];
          [0;0;0;0;0;0;0;0;0;0;0;0;0;0;0;0;0;0;0;0];
          [0;0;0;0;0;0;0;0;0;0;0;0;0;0;0;0;0;0;0;0];
          [0;0;0;0;0;0;0;0;0;1;1;1;0;0;0;0;0;0;0;0];
          [0;0;0;0;0;0;0;0;0;1;1;1;0;0;0;0;0;0;0;0];
          [0;0;0;0;0;0;0;0;0;1;1;1;0;0;0;0;0;0;0;0];
          [0;0;0;0;0;0;0;0;0;1;1;1;0;0;0;0;0;0;0;0];
          [0;0;0;0;0;0;0;0;0;1;1;1;0;0;0;0;0;0;0;0];
          [0;0;0;0;0;0;0;0;0;0;0;0;0;0;0;0;0;0;0;0];
          [0;0;0;0;0;0;0;0;0;0;0;0;0;0;0;0;0;0;0;0]] ∧
  (∃ m', stamp_room 20 10 5 3 (empty_grid 20 10) 5 10 = Some m' ∧
         get m' 3 10 = Some 1 ∧ get m' 5 8 = Some 0) ∧
  (∃ m', stamp_room 20 10 2 2 (empty_grid 20 10) 5 10 = Some m' ∧
         occupied_count m' = 9).
Proof.
  split; [vm_compute; reflexivity|].
  split; eexists; (split; [vm_compute; reflexivity|]); done.
Qed.

(** C8 at a failing input: rooms of size 2 x 2 and the draws [snake_draws].
    The call marks 81 cells; [J*I + J*roomSizeX*roomSizeY] is 70. *)
Theorem occupied_count_exceeds_bound :
  ∃ m' x' y',
    drunkAgent (empty_grid 20 10) 20 10 5 10 2 2 Double.lit_0_1 lit_0_05
      Double.lit_0_2 lit_0_03 5 10 snake_draws = Some (m', x', y') ∧
    occupied_count m' = 81 ∧
    5 * 10 + 5 * 2 * 2 < occupied_count m'.
Proof.
  eexists _, _, _. split; [vm_compute; reflexivity|]. split; done.
Qed.

(** * Further properties *)

(** ** Quotients of integers in [double] *)

Lemma shr_1_nonneg r : 0 ≤ shr_m r → 0 ≤ shr_m (shr_1 r).
Proof.
  destruct r as [m b s]. simpl. intros Hm.
  destruct m as [|[p|p|]|p]; simpl; lia.
Qed.

Lemma iter_pos_shr_1_nonneg p r :
  0 ≤ shr_m r → 0 ≤ shr_m (SpecFloat.iter_pos shr_1 p r).
Proof.
  revert r. induction p as [p IH|p IH|]; intros r Hr; simpl.
  - apply IH, IH. by apply shr_1_nonneg.
  - by apply IH, IH.
  - by apply shr_1_nonneg.
Qed.

Lemma shr_fexp_nonneg m e l :
  0 ≤ m → 0 ≤ shr_m (shr_fexp Double.prec Double.emax m e l).1.
Proof.
  intros Hm. unfold shr_fexp, shr.
  assert (H0 : 0 ≤ shr_m (shr_record_of_loc m l)) by (by destruct l as [|[]]).
  destruct (_ - e) as [|p|p]; simpl; [done| |done].
  by apply iter_pos_shr_1_nonneg.
Qed.

Lemma round_nearest_even_nonneg m l : 0 ≤ m → 0 ≤ round_nearest_even m l.
Proof.
  intros Hm. destruct l as [|[]]; simpl; try lia.
  destruct (Z.even m); lia.
Qed.

Lemma binary_round_aux_nonneg m e l :
  0 ≤ m → nonneg_double (binary_round_aux Double.prec Double.emax false m e l) = true.
Proof.
  intros Hm. unfold binary_round_aux.
  pose proof (shr_fexp_nonneg m e l Hm) as H1.
  destruct (shr_fexp Double.prec Double.emax m e l) as [mrs' e']. simpl in H1.
  pose proof (shr_fexp_nonneg _ e' loc_Exact
                (round_nearest_even_nonneg _ (loc_of_shr_record mrs') H1)) as H2.
  destruct (shr_fexp _ _ _ _ loc_Exact) as [mrs'' e'']. simpl in H2.
  destruct (shr_m mrs'') as [|p|p]; [done| |lia].
  by destruct (e'' <=? _).
Qed.

Lemma div_pos_nonneg mx ex my ey :
  nonneg_double (Double.div (S754_finite false mx ex) (S754_finite false my ey)) = true.
Proof.
  unfold Double.div, SFdiv, SFdiv_core_binary.
  set (e' := Z.min _ _). set (s := ex - ey - e').
  set (m' := match s with Z0 => Z.pos mx | Z.pos _ => Z.shiftl (Z.pos mx) s | Z.neg _ => 0 end).
  assert (Hm' : 0 ≤ m').
  { unfold m'. destruct s; [lia| |lia]. apply Z.shiftl_nonneg. lia. }
  pose proof (Z.div_pos m' (Z.pos my) Hm' eq_refl) as Hq.
  unfold Z.div in Hq. destruct (Z.div_eucl m' (Z.pos my)) as [q r].
  by apply binary_round_aux_nonneg.
Qed.

Lemma digits2_pos_size p : digits2_pos p = Pos.size p.
Proof. induction p as [p IH|p IH|]; simpl; by rewrite ?IH. Qed.

Lemma digits2_pos_iter_xO p k :
  digits2_pos (Pos.iter xO p k) = (digits2_pos p + k)%positive.
Proof.
  induction k as [|k IH] using Pos.peano_ind.
  - simpl. lia.
  - rewrite Pos.iter_succ. simpl. rewrite IH. lia.
Qed.

Lemma digits2_pos_le p n : Z.pos p < 2 ^ n → 0 ≤ n → Z.pos (digits2_pos p) ≤ n.
Proof.
  intros Hp Hn. rewrite digits2_pos_size.
  pose proof (Pos.size_le p) as Hle.
  assert (H2 : 2 ^ Z.pos (Pos.size p) ≤ 2 * Z.pos p).
  { change 2 with (Z.pos 2) at 1. rewrite <- Pos2Z.inj_pow. change (2 * Z.pos p) with (Z.pos p~0). lia. }
  assert (H3 : 2 ^ Z.pos (Pos.size p) < 2 ^ (n + 1)).
  { rewrite Z.pow_add_r by lia. lia. }
  apply Z.pow_lt_mono_r_iff in H3; lia.
Qed.

(** A mantissa of 53 digits is rounded to itself. *)
Lemma binary_round_aux_exact m e :
  digits2_pos m = 53%positive → -1074 ≤ e ≤ 971 →
  binary_round_aux Double.prec Double.emax false (Z.pos m) e loc_Exact
  = S754_finite false m e.
Proof.
  intros Hd He. unfold binary_round_aux.
  assert (Hshr : shr_fexp Double.prec Double.emax (Z.pos m) e loc_Exact
                 = ({| shr_m := Z.pos m; shr_r := false; shr_s := false |}, e)).
  { unfold shr_fexp, shr, fexp, emin, Zdigits2. rewrite Hd. simpl shr_record_of_loc.
    replace (Z.max (53 + e - Double.prec) (3 - Double.emax - Double.prec) - e) with 0
      by (unfold Double.prec, Double.emax; lia).
    done. }
  rewrite Hshr. simpl. rewrite Hshr. simpl.
  replace (e <=? Double.emax - Double.prec) with true
    by (symmetry; apply Z.leb_le; unfold Double.prec, Double.emax; lia).
  done.
Qed.

(** An [int] is converted exactly. *)
Lemma of_int_pos t :
  0 < t < 2 ^ 53 → ∃ m e, Double.of_int t = S754_finite false m e.
Proof.
  intros Ht. destruct t as [|p|p]; [lia| |lia].
  unfold Double.of_int, binary_normalize, binary_round.
  pose proof (digits2_pos_le p 53 (proj2 Ht) ltac:(lia)) as Hd.
  unfold fexp, emin, shl_align.
  replace (Z.max (Z.pos (digits2_pos p) + 0 - Double.prec)
             (3 - Double.emax - Double.prec) - 0)
    with (Z.pos (digits2_pos p) - 53) by (unfold Double.prec, Double.emax; lia).
  destruct (Z.pos (digits2_pos p) - 53) as [|q|q] eqn:Hq; [|lia|].
  - eexists _, _. apply binary_round_aux_exact; [lia|lia].
  - eexists _, _. apply binary_round_aux_exact.
    + rewrite digits2_pos_iter_xO. lia.
    + unfold Double.prec, Double.emax. lia.
Qed.

Lemma div_of_int_nonneg c t :
  0 ≤ c < 2 ^ 53 → 0 < t < 2 ^ 53 →
  nonneg_double (Double.div (Double.of_int c) (Double.of_int t)) = true.
Proof.
  intros Hc Ht. destruct (of_int_pos t Ht) as (mt & et & ->).
  destruct (Z.eq_dec c 0) as [->|Hne].
  - done.
  - destruct (of_int_pos c ltac:(lia)) as (mc & ec & ->). apply div_pos_nonneg.
Qed.

Lemma geb_nonneg_zero x s : nonneg_double x = true → Double.geb x (S754_zero s) = true.
Proof. by destruct x as [[]|[]| |[] ? ?]. Qed.

(** ** More on [cellularAutomata] *)

Lemma elem_of_window R i j a b :
  (a, b) ∈ window R i j ↔ i - R ≤ a ≤ i + R ∧ j - R ≤ b ≤ j + R.
Proof.
  unfold window. rewrite list_elem_of_bind. split.
  - intros (dx & Hin & Hdx). apply list_elem_of_fmap in Hin as (dy & [= -> ->] & Hdy).
    apply elem_of_seqZ in Hdx, Hdy. lia.
  - intros [Ha Hb]. exists (a - i). split.
    + apply list_elem_of_fmap. exists (b - j). split; [f_equal; lia|].
      apply elem_of_seqZ. lia.
    + apply elem_of_seqZ. lia.
Qed.

(** The count reads the cells of the window only. *)
Lemma bit0_count_local W H R m1 m2 i j :
  (∀ a b, i - R ≤ a ≤ i + R → j - R ≤ b ≤ j + R → 0 ≤ a < H → 0 ≤ b < W →
          get m1 a b = get m2 a b) →
  bit0_count m1 W H R i j = bit0_count m2 W H R i j.
Proof.
  intros Hagree. unfold bit0_count. apply foldl_ext_in.
  intros c [a b] Hin. f_equal. unfold counts_bit0. simpl.
  destruct (in_grid W H a b) eqn:Hgrid; [|done].
  apply in_grid_spec in Hgrid as [Ha Hb].
  apply elem_of_window in Hin as [Hwa Hwb]. by rewrite Hagree.
Qed.

Lemma land_shiftr_testbit x :
  Z.land (Z.shiftr x 1) 1 = if Z.testbit x 1 then 1 else 0.
Proof.
  assert (Hmod : Z.land (Z.shiftr x 1) 1 = Z.shiftr x 1 mod 2)
    by (apply (Z.land_ones (Z.shiftr x 1) 1); lia).
  rewrite Hmod, <- Z.bit0_mod, Z.shiftr_spec by lia. done.
Qed.

(** The cell the second pass leaves: 1 if bit 1 of the input cell is set,
    the new value otherwise. *)
Lemma cell_out_testbit m W H R U a b :
  cell_out m W H R U a b
  = if Z.testbit (cell_in m a b) 1 then 1
    else new_value R U (bit0_count m W H R a b).
Proof.
  unfold cell_out, cell_staged.
  rewrite commit_staged by apply new_value_cases.
  rewrite land_shiftr_testbit.
  destruct (Z.testbit (cell_in m a b) 1); [|done].
  by destruct (new_value_cases R U (bit0_count m W H R a b)) as [-> | ->].
Qed.

(** Two maps of the same dimensions and the same cells are equal. *)
Lemma wf_grid_ext W H m1 m2 :
  wf_grid W H m1 → wf_grid W H m2 →
  (∀ a b, 0 ≤ a < H → 0 ≤ b < W → get m1 a b = get m2 a b) →
  m1 = m2.
Proof.
  intros Hwf1 Hwf2 Hcells. apply list_eq. intros i.
  destruct (decide (Z.of_nat i < H)) as [Hi|Hi].
  - destruct (lookup_lt_is_Some_2 m1 i) as [r1 Hr1]; [destruct Hwf1; lia|].
    destruct (lookup_lt_is_Some_2 m2 i) as [r2 Hr2]; [destruct Hwf2; lia|].
    rewrite Hr1, Hr2. f_equal. apply list_eq. intros k.
    pose proof (wf_grid_row _ _ _ _ _ Hwf1 Hr1) as Hl1.
    pose proof (wf_grid_row _ _ _ _ _ Hwf2 Hr2) as Hl2.
    destruct (decide (Z.of_nat k < W)) as [Hk|Hk].
    + specialize (Hcells (Z.of_nat i) (Z.of_nat k) ltac:(lia) ltac:(lia)).
      unfold get in Hcells.
      replace ((0 <=? Z.of_nat i) && (0 <=? Z.of_nat k)) with true in Hcells
        by (symmetry; apply andb_true_iff; lia).
      rewrite !Nat2Z.id, Hr1, Hr2 in Hcells. done.
    + rewrite !lookup_ge_None_2 by lia. done.
  - destruct Hwf1 as [Hl1 _], Hwf2 as [Hl2 _].
    rewrite !lookup_ge_None_2 by lia. done.
Qed.

(** X1. On a map of [H] rows of [W] cells, with [R >= 0] and a window size
    [(2R+1)^2] that fits an [int], the count of a cell is at least the
    number of its window coordinates outside the grid and at most the size
    of the window. *)
Theorem neighbor_count_bounds (m : Map) (W H R i j : Z) :
  wf_grid W H m → 0 ≤ R → (2 * R + 1) * (2 * R + 1) < 2 ^ 31 →
  ∃ c, neighbor_count m W H R i j = Some c ∧
       window_outside W H R i j ≤ c ≤ (2 * R + 1) * (2 * R + 1).
Proof.
  intros Hwf HR Htotal. exists (bit0_count m W H R i j).
  split; [by apply neighbor_count_bit0|].
  rewrite bit0_count_sum by done.
  pose proof (bit0_sum_bounds m W H R i j) as Hb. lia.
Qed.

Lemma neighbor_count_bounds_witness :
  ∃ c, neighbor_count [[0; 1; 1]; [1; 0; 1]] 3 2 2 0 2 = Some c ∧
       window_outside 3 2 2 0 2 ≤ c ≤ (2 * 2 + 1) * (2 * 2 + 1).
Proof.
  apply neighbor_count_bounds; [|lia|by vm_compute].
  split; [reflexivity|repeat constructor].
Defined.

(** X2. The result at a cell depends on the window of that cell only: two maps
    of the same dimensions that agree on the cells of the grid within
    distance [R] of [(i, j)] give the same cell [(i, j)]. *)
Theorem cellularAutomata_local (m1 m2 : Map) (W H R : Z) (U : double) (i j : Z) :
  0 ≤ W → 0 ≤ R → wf_grid W H m1 → wf_grid W H m2 →
  0 ≤ i < H → 0 ≤ j < W →
  (∀ a b, i - R ≤ a ≤ i + R → j - R ≤ b ≤ j + R → 0 ≤ a < H → 0 ≤ b < W →
          get m1 a b = get m2 a b) →
  ∃ m1' m2', cellularAutomata m1 W H R U = Some m1' ∧
             cellularAutomata m2 W H R U = Some m2' ∧
             get m1' i j = get m2' i j.
Proof.
  intros HW HR Hwf1 Hwf2 Hi Hj Hagree.
  assert (HH : 0 ≤ H) by lia.
  destruct (cellularAutomata_cells W H R U m1 HW HH Hwf1) as (m1' & Hrun1 & _ & Hc1).
  destruct (cellularAutomata_cells W H R U m2 HW HH Hwf2) as (m2' & Hrun2 & _ & Hc2).
  exists m1', m2'. split; [done|]. split; [done|].
  rewrite Hc1, Hc2 by done. f_equal.
  rewrite !cell_out_testbit.
  rewrite (bit0_count_local W H R m1 m2 i j Hagree).
  unfold cell_in. rewrite Hagree by lia. done.
Qed.

Lemma cellularAutomata_local_witness :
  ∃ m1' m2',
    cellularAutomata [[0; 1; 0; 0]; [1; 1; 0; 1]] 4 2 1 Double.lit_0_5 = Some m1' ∧
    cellularAutomata [[0; 1; 0; 1]; [1; 1; 0; 0]] 4 2 1 Double.lit_0_5 = Some m2' ∧
    get m1' 0 1 = get m2' 0 1.
Proof.
  apply cellularAutomata_local; [lia|lia| | |lia|lia|].
  - split; [reflexivity|repeat constructor].
  - split; [reflexivity|repeat constructor].
  - intros a b Ha Hb Ha' Hb'.
    assert (Hab : (a = 0 ∨ a = 1) ∧ (b = 0 ∨ b = 1 ∨ b = 2)) by lia.
    destruct Hab as [[-> | ->] [-> | [-> | ->]]]; reflexivity.
Defined.

(** X3. A cell that holds an integer with bit 1 set (2, 3, 6, ...) is occupied
    after the step, whatever the radius and the threshold; a cell with
    bit 1 clear gets the new value of its count. *)
Theorem cellularAutomata_bit1_sticks (m : Map) (W H R : Z) (U : double)
    (i j x : Z) :
  0 ≤ W → wf_grid W H m → 0 ≤ i < H → 0 ≤ j < W → get m i j = Some x →
  ∃ m' c, cellularAutomata m W H R U = Some m' ∧
          neighbor_count m W H R i j = Some c ∧
          get m' i j = Some (if Z.testbit x 1 then 1 else new_value R U c).
Proof.
  intros HW Hwf Hi Hj Hx.
  assert (HH : 0 ≤ H) by lia.
  destruct (cellularAutomata_cells W H R U m HW HH Hwf) as (m' & Hrun & _ & Hc).
  exists m', (bit0_count m W H R i j). split; [done|].
  split; [by apply neighbor_count_bit0|].
  rewrite Hc, cell_out_testbit by done. unfold cell_in. by rewrite Hx.
Qed.

Lemma cellularAutomata_bit1_sticks_witness :
  ∃ m' c, cellularAutomata [[2; 0; 0]; [0; 0; 0]; [0; 0; 0]] 3 3 0 Double.one = Some m' ∧
          neighbor_count [[2; 0; 0]; [0; 0; 0]; [0; 0; 0]] 3 3 0 0 0 = Some c ∧
          get m' 0 0 = Some (if Z.testbit 2 1 then 1 else new_value 0 Double.one c).
Proof.
  apply cellularAutomata_bit1_sticks; [lia| |lia|lia|reflexivity].
  split; [reflexivity|repeat constructor].
Defined.

(** With [R = 1] the count is the sum over the nine window coordinates. *)
Lemma bit0_count_radius_1 m W H i j :
  bit0_count m W H 1 i j
  = counts_bit0 m W H (i - 1, j - 1) + counts_bit0 m W H (i - 1, j)
    + counts_bit0 m W H (i - 1, j + 1) + counts_bit0 m W H (i, j - 1)
    + counts_bit0 m W H (i, j) + counts_bit0 m W H (i, j + 1)
    + counts_bit0 m W H (i + 1, j - 1) + counts_bit0 m W H (i + 1, j)
    + counts_bit0 m W H (i + 1, j + 1).
Proof.
  rewrite bit0_count_sum by (by vm_compute).
  unfold bit0_sum, window.
  change (seqZ (- (1)) (2 * 1 + 1)) with [-1; 0; 1]. simpl.
  replace (i + -1) with (i - 1) by lia. replace (j + -1) with (j - 1) by lia.
  rewrite !Z.add_0_r. done.
Qed.

Lemma new_value_half_majority c :
  5 ≤ c ≤ 9 → new_value 1 Double.lit_0_5 c = 1.
Proof.
  intros Hc. assert (Hcases : c = 5 ∨ c = 6 ∨ c = 7 ∨ c = 8 ∨ c = 9) by lia.
  destruct Hcases as [-> | [-> | [-> | [-> | ->]]]]; by vm_compute.
Qed.

(** A corner cell has at least five of its nine window coordinates outside
    the grid. *)
Lemma corner_count (m : Map) (W H i j : Z) :
  1 ≤ W → 1 ≤ H → i = 0 ∨ i = H - 1 → j = 0 ∨ j = W - 1 →
  5 ≤ bit0_count m W H 1 i j ≤ 9.
Proof.
  intros HW HH Hi Hj.
  rewrite bit0_count_radius_1.
  pose proof (counts_bit0_range m W H (i - 1, j - 1)).
  pose proof (counts_bit0_range m W H (i - 1, j)).
  pose proof (counts_bit0_range m W H (i - 1, j + 1)).
  pose proof (counts_bit0_range m W H (i, j - 1)).
  pose proof (counts_bit0_range m W H (i, j)).
  pose proof (counts_bit0_range m W H (i, j + 1)).
  pose proof (counts_bit0_range m W H (i + 1, j - 1)).
  pose proof (counts_bit0_range m W H (i + 1, j)).
  pose proof (counts_bit0_range m W H (i + 1, j + 1)).
  destruct Hi as [-> | ->], Hj as [-> | ->].
  - rewrite (counts_bit0_outside m W H (0 - 1) (0 - 1)),
      (counts_bit0_outside m W H (0 - 1) 0),
      (counts_bit0_outside m W H (0 - 1) (0 + 1)),
      (counts_bit0_outside m W H 0 (0 - 1)),
      (counts_bit0_outside m W H (0 + 1) (0 - 1)) by lia. lia.
  - rewrite (counts_bit0_outside m W H (0 - 1) (W - 1 - 1)),
      (counts_bit0_outside m W H (0 - 1) (W - 1)),
      (counts_bit0_outside m W H (0 - 1) (W - 1 + 1)),
      (counts_bit0_outside m W H 0 (W - 1 + 1)),
      (counts_bit0_outside m W H (0 + 1) (W - 1 + 1)) by lia. lia.
  - rewrite (counts_bit0_outside m W H (H - 1 + 1) (0 - 1)),
      (counts_bit0_outside m W H (H - 1 + 1) 0),
      (counts_bit0_outside m W H (H - 1 + 1) (0 + 1)),
      (counts_bit0_outside m W H (H - 1) (0 - 1)),
      (counts_bit0_outside m W H (H - 1 - 1) (0 - 1)) by lia. lia.
  - rewrite (counts_bit0_outside m W H (H - 1 + 1) (W - 1 - 1)),
      (counts_bit0_outside m W H (H - 1 + 1) (W - 1)),
      (counts_bit0_outside m W H (H - 1 + 1) (W - 1 + 1)),
      (counts_bit0_outside m W H (H - 1) (W - 1 + 1)),
      (counts_bit0_outside m W H (H - 1 - 1) (W - 1 + 1)) by lia. lia.
Qed.

Lemma cell_out_corner (m : Map) (W H i j : Z) :
  1 ≤ W → 1 ≤ H → i = 0 ∨ i = H - 1 → j = 0 ∨ j = W - 1 →
  cell_out m W H 1 Double.lit_0_5 i j = 1.
Proof.
  intros HW HH Hi Hj. rewrite cell_out_testbit.
  destruct (Z.testbit (cell_in m i j) 1); [done|].
  apply new_value_half_majority. by apply corner_count.
Qed.

(** X4. With the radius 1 and the threshold 0.5 of the driver, the four corner
    cells of any map are occupied after a step: five of the nine window
    coordinates of a corner are outside the grid. *)
Theorem cellularAutomata_corners (m : Map) (W H i j : Z) :
  1 ≤ W → 1 ≤ H → wf_grid W H m →
  i = 0 ∨ i = H - 1 → j = 0 ∨ j = W - 1 →
  ∃ m', cellularAutomata m W H 1 Double.lit_0_5 = Some m' ∧
        wf_grid W H m' ∧ get m' i j = Some 1.
Proof.
  intros HW HH Hwf Hi Hj.
  destruct (cellularAutomata_cells W H 1 Double.lit_0_5 m) as (m' & Hrun & Hwf' & Hc);
    [lia|lia|done|].
  exists m'. split; [done|]. split; [done|].
  rewrite Hc by lia. f_equal. by apply cell_out_corner.
Qed.

Lemma cellularAutomata_corners_witness :
  ∃ m', cellularAutomata [[0; 0; 0; 0]; [0; 0; 0; 0]; [0; 0; 0; 0]] 4 3 1
          Double.lit_0_5 = Some m' ∧
        wf_grid 4 3 m' ∧ get m' (3 - 1) 0 = Some 1.
Proof.
  apply cellularAutomata_corners; [lia|lia| |by right|by left].
  split; [reflexivity|repeat constructor].
Defined.

(** With [R = 0] the count of a cell of a 0/1 map is the cell. *)
Lemma bit0_count_radius_0 m W H i j x :
  0 ≤ i < H → 0 ≤ j < W → get m i j = Some x → x = 0 ∨ x = 1 →
  bit0_count m W H 0 i j = x.
Proof.
  intros Hi Hj Hx Hbin.
  rewrite bit0_count_sum by (by vm_compute).
  unfold bit0_sum, window.
  change (seqZ (- 0) (2 * 0 + 1)) with [0]. simpl.
  rewrite !Z.add_0_r. unfold counts_bit0. simpl.
  rewrite (proj2 (in_grid_spec W H i j)) by done. rewrite Hx. simpl.
  by destruct Hbin as [-> | ->].
Qed.

(** X5. With [R = 0] every cell of a 0/1 map is compared with the threshold on
    its own: an occupied cell stays occupied when [1.0 >= U], an empty cell
    becomes occupied when [0.0 >= U].  For a threshold above 0 and at most
    1 the step returns its input. *)
Theorem cellularAutomata_radius_0 (m : Map) (W H : Z) (U : double) :
  0 ≤ W → wf_grid W H m → binary_grid m →
  (∃ m', cellularAutomata m W H 0 U = Some m' ∧
         ∀ i j x, 0 ≤ i < H → 0 ≤ j < W → get m i j = Some x →
           get m' i j
           = Some (if Double.geb (if x =? 1 then Double.one else Double.zero) U
                   then 1 else 0)) ∧
  (Double.geb Double.one U = true → Double.geb Double.zero U = false →
   cellularAutomata m W H 0 U = Some m).
Proof.
  intros HW Hwf Hbin.
  assert (HH : 0 ≤ H) by (destruct Hwf as [<- _]; lia).
  destruct (cellularAutomata_cells W H 0 U m HW HH Hwf) as (m' & Hrun & Hwf' & Hc).
  assert (Hcells : ∀ i j x, 0 ≤ i < H → 0 ≤ j < W → get m i j = Some x →
            get m' i j
            = Some (if Double.geb (if x =? 1 then Double.one else Double.zero) U
                    then 1 else 0)).
  { intros i j x Hi Hj Hx.
    pose proof (binary_grid_get _ _ _ _ Hbin Hx) as Hx01.
    rewrite Hc, cell_out_testbit by done. unfold cell_in. rewrite Hx. simpl.
    rewrite (bit0_count_radius_0 m W H i j x) by done.
    by destruct Hx01 as [-> | ->]. }
  split.
  - by exists m'.
  - intros H1 H0. rewrite Hrun. f_equal.
    apply (wf_grid_ext W H); [done|done|].
    intros a b Ha Hb.
    destruct (wf_grid_get _ _ _ _ _ Hwf Ha Hb) as [x Hx].
    rewrite (Hcells a b x) by done. rewrite Hx.
    destruct (binary_grid_get _ _ _ _ Hbin Hx) as [-> | ->]; simpl.
    + by rewrite H0.
    + by rewrite H1.
Qed.

Lemma cellularAutomata_radius_0_witness :
  wf_grid 3 2 [[0; 1; 1]; [1; 0; 1]] ∧
  Double.geb Double.one Double.lit_0_5 = true ∧
  Double.geb Double.zero Double.lit_0_5 = false ∧
  cellularAutomata [[0; 1; 1]; [1; 0; 1]] 3 2 0 Double.lit_0_5
  = Some [[0; 1; 1]; [1; 0; 1]].
Proof.
  assert (Hwf : wf_grid 3 2 [[0; 1; 1]; [1; 0; 1]])
    by (split; [reflexivity|repeat constructor]).
  assert (Hbin : binary_grid [[0; 1; 1]; [1; 0; 1]])
    by (repeat (constructor; try (by left); try (by right))).
  split; [exact Hwf|]. split; [reflexivity|]. split; [reflexivity|].
  exact (proj2 (cellularAutomata_radius_0 [[0; 1; 1]; [1; 0; 1]] 3 2
                  Double.lit_0_5 ltac:(lia) Hwf Hbin) eq_refl eq_refl).
Defined.

Lemma bit0_count_bounds m W H R i j :
  0 ≤ R → (2 * R + 1) * (2 * R + 1) < 2 ^ 31 →
  0 ≤ bit0_count m W H R i j ≤ (2 * R + 1) * (2 * R + 1).
Proof.
  intros HR Htotal. rewrite bit0_count_sum by done.
  pose proof (bit0_sum_bounds m W H R i j) as Hb.
  assert (0 ≤ window_outside W H R i j) by (unfold window_outside; lia).
  lia.
Qed.

(** X6. With a threshold of zero every cell is occupied after the step,
    whatever the map holds: the quotient [count / total] is never
    negative nor a NaN.  The window size must fit an [int]. *)
Theorem cellularAutomata_threshold_0 (m : Map) (W H R : Z) (s : bool) :
  0 ≤ W → 0 ≤ R → (2 * R + 1) * (2 * R + 1) < 2 ^ 31 → wf_grid W H m →
  ∃ m', cellularAutomata m W H R (S754_zero s) = Some m' ∧
        ∀ i j, 0 ≤ i < H → 0 ≤ j < W → get m' i j = Some 1.
Proof.
  intros HW HR Htotal Hwf.
  assert (HH : 0 ≤ H) by (destruct Hwf as [<- _]; lia).
  destruct (cellularAutomata_cells W H R (S754_zero s) m HW HH Hwf)
    as (m' & Hrun & _ & Hc).
  exists m'. split; [done|]. intros i j Hi Hj.
  rewrite Hc, cell_out_testbit by done.
  destruct (Z.testbit (cell_in m i j) 1); [done|].
  pose proof (bit0_count_bounds m W H R i j HR Htotal) as Hb.
  unfold new_value. rewrite total_fits by done.
  rewrite geb_nonneg_zero; [done|].
  apply div_of_int_nonneg; [|nia].
  assert (2 ^ 31 < 2 ^ 53) by (by vm_compute). lia.
Qed.

Lemma cellularAutomata_threshold_0_witness :
  ∃ m', cellularAutomata [[0; 0; 0]; [0; 4; 0]; [0; 0; 0]] 3 3 1 Double.zero = Some m' ∧
        ∀ i j, 0 ≤ i < 3 → 0 ≤ j < 3 → get m' i j = Some 1.
Proof.
  apply (cellularAutomata_threshold_0 _ 3 3 1 false); [lia|lia|by vm_compute|].
  split; [reflexivity|repeat constructor].
Defined.

(** X7. With a negative radius the window is empty and the count is 0: every
    cell of a 0/1 map gets the same value, 1 when [0.0 >= U] and 0
    otherwise.  The window size must fit an [int]. *)
Theorem cellularAutomata_negative_radius (m : Map) (W H R : Z) (U : double) :
  0 ≤ W → R < 0 → (2 * R + 1) * (2 * R + 1) < 2 ^ 31 →
  wf_grid W H m → binary_grid m →
  ∃ m', cellularAutomata m W H R U = Some m' ∧
        ∀ i j, 0 ≤ i < H → 0 ≤ j < W →
          neighbor_count m W H R i j = Some 0 ∧
          get m' i j = Some (if Double.geb Double.zero U then 1 else 0).
Proof.
  intros HW HR Htotal Hwf Hbin.
  assert (HH : 0 ≤ H) by (destruct Hwf as [<- _]; lia).
  destruct (cellularAutomata_cells W H R U m HW HH Hwf) as (m' & Hrun & _ & Hc).
  exists m'. split; [done|]. intros i j Hi Hj.
  assert (Hcount : bit0_count m W H R i j = 0).
  { unfold bit0_count, window. by rewrite seqZ_nil by lia. }
  split; [by rewrite (neighbor_count_bit0 W H), Hcount|].
  destruct (wf_grid_get _ _ _ _ _ Hwf Hi Hj) as [x Hx].
  rewrite Hc, cell_out_testbit by done. unfold cell_in. rewrite Hx, Hcount.
  assert (Hbit : Z.testbit (default 0 (Some x)) 1 = false)
    by (by destruct (binary_grid_get _ _ _ _ Hbin Hx) as [-> | ->]).
  rewrite Hbit. unfold new_value. rewrite total_fits by done.
  destruct (of_int_pos ((2 * R + 1) * (2 * R + 1))) as (mt & et & ->); [|done].
  assert (2 ^ 31 < 2 ^ 53) by (by vm_compute). nia.
Qed.

Lemma cellularAutomata_negative_radius_witness :
  ∃ m', cellularAutomata [[0; 1; 1]; [1; 0; 1]] 3 2 (-1) Double.lit_0_5 = Some m' ∧
        ∀ i j, 0 ≤ i < 2 → 0 ≤ j < 3 →
          neighbor_count [[0; 1; 1]; [1; 0; 1]] 3 2 (-1) i j = Some 0 ∧
          get m' i j = Some (if Double.geb Double.zero Double.lit_0_5 then 1 else 0).
Proof.
  apply cellularAutomata_negative_radius; [lia|lia|by vm_compute| |].
  - split; [reflexivity|repeat constructor].
  - repeat (constructor; try (by left); try (by right)).
Defined.

(** ** More on [drunkAgent] *)

Lemma for_range_bounded_inv {S} (Inv : S → Prop) (size : S → Z) (k : Z)
    lo hi (body : Z → S → option S) s s' :
  0 ≤ k → Inv s →
  (∀ x t t', Inv t → body x t = Some t' → Inv t' ∧ size t' ≤ size t + k) →
  for_range lo hi body s = Some s' →
  Inv s' ∧ size s' ≤ size s + Z.max 0 (hi - lo) * k.
Proof.
  intros Hk Hs Hbody. unfold for_range.
  replace (Z.max 0 (hi - lo)) with (Z.of_nat (Z.to_nat (hi - lo))) by lia.
  generalize (Z.to_nat (hi - lo)) as n. intros n. revert lo s Hs.
  induction n as [|n IH]; intros lo s Hs; simpl.
  - intros [= <-]. split; [done|lia].
  - destruct (body lo s) as [t|] eqn:Ht; [|done]. simpl. intros Hrun.
    destruct (Hbody _ _ _ Hs Ht) as [Ht' Hsize].
    destruct (IH _ _ Ht' Hrun) as [Hs' Hsize']. split; [done|nia].
Qed.

Lemma new_heading_cardinal d : 0 ≤ d ≤ 3 → new_heading d ∈ cardinal_headings.
Proof.
  intros Hd. assert (Hc : d = 0 ∨ d = 1 ∨ d = 2 ∨ d = 3) by lia.
  unfold cardinal_headings.
  destruct Hc as [-> | [-> | [-> | ->]]]; simpl; repeat constructor.
Qed.

Lemma cardinal_unit h :
  h ∈ cardinal_headings → Z.abs h.1 + Z.abs h.2 = 1.
Proof.
  unfold cardinal_headings. rewrite !elem_of_cons, elem_of_nil.
  intros [-> | [-> | [-> | [-> | []]]]]; done.
Qed.

Section tracking.
Context {rng : Type} {RS : RandomSource rng}.
Implicit Types (s : agent rng).

(** The heading stays cardinal. *)
Lemma inner_step_heading W H probIncreaseChange s s' :
  inner_step W H probIncreaseChange s = Some s' →
  (dx s, dy s) ∈ cardinal_headings → (dx s', dy s') ∈ cardinal_headings.
Proof.
  unfold inner_step. destruct (mark _ _ _ _ _); [|done]. simpl.
  destruct (in_grid W H (agentX s + dx s) (agentY s + dy s)).
  - pose proof (dirDist_range (chance (gen s)).2) as Hd.
    destruct (chance (gen s)) as [c g1]. simpl in Hd.
    destruct (Double.ltb c (probChangeDirection s)).
    + destruct (dirDist g1) as [d g2]. simpl in Hd.
      intros [= <-] _. exact (new_heading_cardinal d Hd).
    + by intros [= <-].
  - pose proof (dirDist_range (gen s)) as Hd.
    destruct (dirDist (gen s)) as [d g1]. simpl in Hd.
    intros [= <-] _. exact (new_heading_cardinal d Hd).
Qed.

(** The room decision leaves the position and the heading as they are. *)
Lemma room_decision_keeps W H roomSizeX roomSizeY probIncreaseRoom s s' :
  room_decision W H roomSizeX roomSizeY probIncreaseRoom s = Some s' →
  agentX s' = agentX s ∧ agentY s' = agentY s ∧ dx s' = dx s ∧ dy s' = dy s.
Proof.
  unfold room_decision. destruct (chance (gen s)) as [c g1].
  destruct (Double.ltb c (probGenerateRoom s)).
  - destruct (stamp_room _ _ _ _ _ _ _); [|done]. by intros [= <-].
  - by intros [= <-].
Qed.

(** The distance of the agent from [(x0, y0)], in steps. *)
Lemma inner_step_distance W H probIncreaseChange x0 y0 s s' :
  inner_step W H probIncreaseChange s = Some s' →
  (dx s, dy s) ∈ cardinal_headings →
  Z.abs (agentX s' - x0) + Z.abs (agentY s' - y0)
  ≤ Z.abs (agentX s - x0) + Z.abs (agentY s - y0) + 1.
Proof.
  intros Hrun Hcard. apply cardinal_unit in Hcard. simpl in Hcard.
  destruct (inner_step_move W H probIncreaseChange s s' Hrun)
    as [[-> ->]|(-> & -> & _)]; lia.
Qed.

Lemma walks_distance W H J I roomSizeX roomSizeY probIncreaseRoom
    probIncreaseChange x0 y0 s s' :
  0 ≤ J → 0 ≤ I →
  walks W H J I roomSizeX roomSizeY probIncreaseRoom probIncreaseChange s
  = Some s' →
  (dx s, dy s) ∈ cardinal_headings →
  (dx s', dy s') ∈ cardinal_headings ∧
  Z.abs (agentX s' - x0) + Z.abs (agentY s' - y0)
  ≤ Z.abs (agentX s - x0) + Z.abs (agentY s - y0) + J * I.
Proof.
  intros HJ HI Hrun Hcard. unfold walks in Hrun.
  apply (for_range_bounded_inv (λ s, (dx s, dy s) ∈ cardinal_headings)
           (λ s, Z.abs (agentX s - x0) + Z.abs (agentY s - y0)) I) in Hrun;
    [|lia|done|].
  - destruct Hrun as [Hc Hd]. split; [done|]. simpl in Hd. nia.
  - intros _ t t' Ht. unfold walk.
    destruct (steps W H I probIncreaseChange t) as [t1|] eqn:Hsteps; [|done].
    simpl. intros Hroom. unfold steps in Hsteps.
    apply (for_range_bounded_inv (λ s, (dx s, dy s) ∈ cardinal_headings)
             (λ s, Z.abs (agentX s - x0) + Z.abs (agentY s - y0)) 1) in Hsteps;
      [|lia|done|].
    + destruct Hsteps as [Hc1 Hd1].
      destruct (room_decision_keeps _ _ _ _ _ _ _ Hroom) as (-> & -> & -> & ->).
      split; [done|]. simpl in Hd1. lia.
    + intros _ u u' Hu Hstep. split.
      * by eapply inner_step_heading.
      * by eapply inner_step_distance.
Qed.

End tracking.

(** X8. A call of [J] walks of [I] steps leaves the agent at most [J * I] cells
    from where it started, counting row and column moves: every heading
    the call uses is one of the four cardinal headings, never (0, 0). *)
Theorem drunkAgent_displacement {rng : Type} {RS : RandomSource rng} (m : Map)
    (W H J I roomSizeX roomSizeY : Z)
    (probGenerateRoom probIncreaseRoom : double)
    (probChangeDirection probIncreaseChange : double)
    (x y : Z) (seed : rng) :
  0 ≤ J → 0 ≤ I → wf_grid W H m →
  ∃ m' x' y',
    drunkAgent m W H J I roomSizeX roomSizeY probGenerateRoom probIncreaseRoom
      probChangeDirection probIncreaseChange x y seed = Some (m', x', y') ∧
    Z.abs (x' - x) + Z.abs (y' - y) ≤ J * I.
Proof.
  intros HJ HI Hwf.
  destruct (drunkAgent_inv m W H J I roomSizeX roomSizeY probGenerateRoom
              probIncreaseRoom probChangeDirection probIncreaseChange
              x y seed Hwf) as (m' & x' & y' & Hrun & _).
  exists m', x', y'. split; [done|].
  unfold drunkAgent in Hrun.
  destruct (walks _ _ _ _ _ _ _ _ _) as [s|] eqn:Hwalks; [|done].
  injection Hrun as _ <- <-.
  apply (walks_distance _ _ _ _ _ _ _ _ x y) in Hwalks; [|done|done|].
  - simpl in Hwalks. lia.
  - simpl. unfold cardinal_headings. repeat constructor.
Qed.

Lemma drunkAgent_displacement_witness :
  ∃ m' x' y',
    drunkAgent (empty_grid 6 5) 6 5 2 3 3 3 Double.lit_0_1 lit_0_05
      Double.lit_0_2 lit_0_03 2 1 [3; 0; 1; 2] = Some (m', x', y') ∧
    Z.abs (x' - 2) + Z.abs (y' - 1) ≤ 2 * 3.
Proof.
  apply drunkAgent_displacement; [lia|lia|].
  apply wf_grid_empty; lia.
Defined.

(** X9. Every cell the agent leaves is marked: the position after [j < J] walks
    and [k < I] more steps is occupied in the map the call returns, when
    the call starts inside the grid. *)
Theorem drunkAgent_trail {rng : Type} {RS : RandomSource rng} (m : Map)
    (W H J I roomSizeX roomSizeY : Z)
    (probGenerateRoom probIncreaseRoom : double)
    (probChangeDirection probIncreaseChange : double)
    (x y : Z) (seed : rng) (j k : Z) :
  wf_grid W H m → 0 ≤ x < H → 0 ≤ y < W → 0 ≤ j < J → 0 ≤ k < I →
  ∃ s m' x' y',
    walks W H j I roomSizeX roomSizeY probIncreaseRoom probIncreaseChange
      (initial_agent m probGenerateRoom probChangeDirection x y seed)
    ≫= steps W H k probIncreaseChange = Some s ∧
    drunkAgent m W H J I roomSizeX roomSizeY probGenerateRoom probIncreaseRoom
      probChangeDirection probIncreaseChange x y seed = Some (m', x', y') ∧
    occupied m' (agentX s) (agentY s).
Proof.
  intros Hwf Hx Hy Hj Hk. unfold drunkAgent.
  rewrite (walks_through W H J I _ _ _ _ _ j k) by lia.
  destruct (walks_inv W H j I roomSizeX roomSizeY probIncreaseRoom
              probIncreaseChange m x y _
              (initial_agent_inv W H m probGenerateRoom probChangeDirection
                 x y seed Hwf)) as (sj & -> & Hsj).
  simpl.
  destruct (steps_inv W H k probIncreaseChange m x y sj Hsj)
    as (s & -> & Hwfs & _ & Hin).
  simpl. specialize (Hin (proj2 (in_grid_spec W H x y) (conj Hx Hy))).
  rewrite (steps_split W H (I - k) _ s 1) by lia. rewrite steps_one.
  destruct (inner_step_spec W H probIncreaseChange s Hwfs)
    as (s1 & -> & Hwf1 & Hp1 & _). simpl.
  assert (Hocc : occupied (newMap s1) (agentX s) (agentY s))
    by (by apply (Hp1 (agentX s) (agentY s))).
  assert (Hinv : agent_inv W H (newMap s1) (-1) 0 s1).
  { split; [done|]. split; [apply grows_refl|]. intros Hneg.
    apply in_grid_spec in Hneg. lia. }
  destruct (steps_inv W H (I - k - 1) probIncreaseChange _ _ _ _ Hinv)
    as (s2 & -> & Hinv2). simpl.
  destruct (room_decision_inv W H roomSizeX roomSizeY probIncreaseRoom
              _ _ _ _ Hinv2) as (s3 & -> & Hinv3). simpl.
  destruct (walks_inv W H (J - j - 1) I roomSizeX roomSizeY probIncreaseRoom
              probIncreaseChange _ _ _ _ Hinv3) as (s4 & -> & _ & Hg & _).
  simpl. exists s, (newMap s4), (agentX s4), (agentY s4).
  split; [done|]. split; [done|]. by eapply grows_occupied.
Qed.

Lemma drunkAgent_trail_witness :
  ∃ s m' x' y',
    walks 6 5 1 3 3 3 lit_0_05 lit_0_03
      (initial_agent (empty_grid 6 5) Double.lit_0_1 Double.lit_0_2 2 1 [3; 0; 1; 2])
    ≫= steps 6 5 2 lit_0_03 = Some s ∧
    drunkAgent (empty_grid 6 5) 6 5 2 3 3 3 Double.lit_0_1 lit_0_05
      Double.lit_0_2 lit_0_03 2 1 [3; 0; 1; 2] = Some (m', x', y') ∧
    occupied m' (agentX s) (agentY s).
Proof.
  apply drunkAgent_trail; [|lia|lia|lia|lia].
  apply wf_grid_empty; lia.
Defined.

Lemma for_range_keeps {S} (Inv : S → Prop) lo hi (body : Z → S → option S) s s' :
  Inv s →
  (∀ x t t', Inv t → body x t = Some t' → Inv t') →
  for_range lo hi body s = Some s' → Inv s'.
Proof.
  intros Hs Hbody Hrun.
  apply (for_range_bounded_inv Inv (λ _, 0) 0) in Hrun; [tauto|lia|done|].
  intros x t t' Ht Hb. split; [by eapply Hbody|lia].
Qed.

(** X10. An agent none of whose four neighbours is a cell of the grid never
    moves: an agent two or more cells away from the grid stays outside, and
    so does the agent of a grid of one cell stay on it. *)
Theorem drunkAgent_stuck {rng : Type} {RS : RandomSource rng} (m : Map)
    (W H J I roomSizeX roomSizeY : Z)
    (probGenerateRoom probIncreaseRoom : double)
    (probChangeDirection probIncreaseChange : double)
    (x y : Z) (seed : rng) :
  wf_grid W H m →
  (∀ h, h ∈ cardinal_headings → in_grid W H (x + h.1) (y + h.2) = false) →
  ∃ m',
    drunkAgent m W H J I roomSizeX roomSizeY probGenerateRoom probIncreaseRoom
      probChangeDirection probIncreaseChange x y seed = Some (m', x, y).
Proof.
  intros Hwf Hout.
  destruct (drunkAgent_inv m W H J I roomSizeX roomSizeY probGenerateRoom
              probIncreaseRoom probChangeDirection probIncreaseChange
              x y seed Hwf) as (m' & x' & y' & Hrun & _).
  exists m'. rewrite Hrun. unfold drunkAgent in Hrun.
  destruct (walks _ _ _ _ _ _ _ _ _) as [s|] eqn:Hwalks; [|done].
  injection Hrun as _ <- <-. unfold walks in Hwalks.
  apply (for_range_keeps
           (λ s, (dx s, dy s) ∈ cardinal_headings ∧ agentX s = x ∧ agentY s = y))
    in Hwalks.
  - destruct Hwalks as (_ & -> & ->). done.
  - split; [|done]. simpl. unfold cardinal_headings. repeat constructor.
  - intros _ t t' Ht. unfold walk.
    destruct (steps W H I probIncreaseChange t) as [t1|] eqn:Hsteps; [|done].
    simpl. intros Hroom. unfold steps in Hsteps.
    apply (for_range_keeps
             (λ s, (dx s, dy s) ∈ cardinal_headings ∧ agentX s = x ∧ agentY s = y))
      in Hsteps; [|done|].
    + destruct (room_decision_keeps _ _ _ _ _ _ _ Hroom) as (-> & -> & -> & ->).
      done.
    + intros _ u u' (Hcard & Hux & Huy) Hstep.
      split; [by eapply inner_step_heading|].
      destruct (inner_step_move W H probIncreaseChange u u' Hstep)
        as [[-> ->]|(Hx' & Hy' & Hin)]; [done|].
      rewrite Hx', Hy', Hux, Huy in Hin.
      pose proof (Hout _ Hcard) as Ho. simpl in Ho. congruence.
Qed.

Lemma drunkAgent_stuck_witness :
  ∃ m',
    drunkAgent (empty_grid 4 3) 4 3 2 3 3 3 Double.lit_0_1 lit_0_05
      Double.lit_0_2 lit_0_03 (-2) 1 [1; 0; 3] = Some (m', -2, 1).
Proof.
  apply drunkAgent_stuck; [apply wf_grid_empty; lia|].
  intros h Hh. unfold cardinal_headings in Hh.
  rewrite !elem_of_cons, elem_of_nil in Hh.
  destruct Hh as [-> | [-> | [-> | [-> | []]]]]; reflexivity.
Defined.

Lemma painted_twice (P : Z → Z → Prop) m m1 m2 :
  painted P m m1 → painted P m1 m2 → painted P m m2.
Proof.
  intros H1 H2 a b. destruct (H1 a b) as [H1y H1n], (H2 a b) as [H2y H2n].
  split; [done|]. intros Hn. rewrite H2n by done. by apply H1n.
Qed.

(** X11. Without walks the call returns its arguments, whatever the map; without
    steps the agent stays where it is and the map is returned as it was or
    with the room around the agent drawn. *)
Theorem drunkAgent_no_walks_no_steps {rng : Type} {RS : RandomSource rng}
    (m : Map) (W H J I roomSizeX roomSizeY : Z)
    (probGenerateRoom probIncreaseRoom : double)
    (probChangeDirection probIncreaseChange : double)
    (x y : Z) (seed : rng) :
  (J ≤ 0 →
   drunkAgent m W H J I roomSizeX roomSizeY probGenerateRoom probIncreaseRoom
     probChangeDirection probIncreaseChange x y seed = Some (m, x, y)) ∧
  (I ≤ 0 → wf_grid W H m →
   ∃ m',
     drunkAgent m W H J I roomSizeX roomSizeY probGenerateRoom probIncreaseRoom
       probChangeDirection probIncreaseChange x y seed = Some (m', x, y) ∧
     (m' = m ∨ painted (in_room W H roomSizeX roomSizeY x y) m m')).
Proof.
  split.
  - intros HJ. unfold drunkAgent, walks. by rewrite for_range_empty by lia.
  - intros HI Hwf. unfold drunkAgent, walks.
    destruct (for_range_preserves
      (λ s : agent rng, wf_grid W H (newMap s) ∧ agentX s = x ∧ agentY s = y ∧
            (newMap s = m ∨ painted (in_room W H roomSizeX roomSizeY x y) m (newMap s)))
      0 J
      (λ _ s, walk W H I roomSizeX roomSizeY probIncreaseRoom probIncreaseChange s)
      (initial_agent m probGenerateRoom probChangeDirection x y seed))
      as (s & -> & _ & <- & <- & Hmap).
    + split; [done|]. split; [done|]. split; [done|]. by left.
    + intros _ t _ (Hwft & Htx & Hty & Hmap). unfold walk, steps.
      rewrite for_range_empty by lia. simpl.
      destruct (room_decision_spec W H roomSizeX roomSizeY probIncreaseRoom t Hwft)
        as (t' & -> & Hwf' & Hmap' & Hx' & Hy').
      exists t'. split; [done|]. split; [done|].
      split; [congruence|]. split; [congruence|].
      rewrite Htx, Hty in Hmap'.
      destruct Hmap' as [-> | Hp']; [done|]. right.
      destruct Hmap as [<- | Hp]; [done|]. by eapply painted_twice.
    + simpl. by exists (newMap s).
Qed.

Lemma drunkAgent_no_walks_no_steps_witness :
  drunkAgent [[1]; [2; 3]] 6 5 0 3 3 3 Double.lit_0_1 lit_0_05
    Double.lit_0_2 lit_0_03 9 9 [3; 0; 1; 2] = Some ([[1]; [2; 3]], 9, 9) ∧
  ∃ m',
    drunkAgent (empty_grid 6 5) 6 5 4 0 3 3 Double.lit_0_1 lit_0_05
      Double.lit_0_2 lit_0_03 2 1 [3; 0; 1; 2] = Some (m', 2, 1) ∧
    (m' = empty_grid 6 5 ∨ painted (in_room 6 5 3 3 2 1) (empty_grid 6 5) m').
Proof.
  split.
  - apply (proj1 (drunkAgent_no_walks_no_steps [[1]; [2; 3]] 6 5 0 3 3 3
                    Double.lit_0_1 lit_0_05 Double.lit_0_2 lit_0_03 9 9
                    [3; 0; 1; 2])). lia.
  - apply (proj2 (drunkAgent_no_walks_no_steps (empty_grid 6 5) 6 5 4 0 3 3
                    Double.lit_0_1 lit_0_05 Double.lit_0_2 lit_0_03 2 1
                    [3; 0; 1; 2])); [lia|].
    apply wf_grid_empty; lia.
Defined.

(** X12. The room loops never fail on a map of [H] rows of [W] cells; they set
    to 1 the cells of the grid with a row within [roomSizeX / 2] of the row
    of the agent and a column within [roomSizeY / 2] of its column, and
    leave every other cell as it was. *)
Theorem stamp_room_cells (W H roomSizeX roomSizeY : Z) (m : Map) (x y : Z) :
  wf_grid W H m →
  ∃ m', stamp_room W H roomSizeX roomSizeY m x y = Some m' ∧ wf_grid W H m' ∧
        ∀ a b, get m' a b
               = if decide (0 ≤ a < H ∧ 0 ≤ b < W ∧
                            x - roomSizeX ÷ 2 ≤ a ≤ x + roomSizeX ÷ 2 ∧
                            y - roomSizeY ÷ 2 ≤ b ≤ y + roomSizeY ÷ 2)
                 then Some 1 else get m a b.
Proof.
  intros Hwf.
  destruct (stamp_room_spec W H roomSizeX roomSizeY m x y Hwf)
    as (m' & Hrun & Hwf' & Hp).
  exists m'. split; [done|]. split; [done|]. intros a b.
  destruct (Hp a b) as [Hy Hn]. unfold in_room in Hy, Hn.
  rewrite in_grid_spec in Hy, Hn.
  destruct (decide _) as [Hin|Hout]; [apply Hy|apply Hn]; tauto.
Qed.

Lemma stamp_room_cells_witness :
  ∃ m', stamp_room 4 3 5 2 (empty_grid 4 3) 0 3 = Some m' ∧ wf_grid 4 3 m' ∧
        ∀ a b, get m' a b
               = if decide (0 ≤ a < 3 ∧ 0 ≤ b < 4 ∧
                            0 - 5 ÷ 2 ≤ a ≤ 0 + 5 ÷ 2 ∧
                            3 - 2 ÷ 2 ≤ b ≤ 3 + 2 ÷ 2)
                 then Some 1 else get (empty_grid 4 3) a b.
Proof.
  apply stamp_room_cells. apply wf_grid_empty; lia.
Defined.

(** X13. A room with a size of -2 or less draws nothing, whatever the map. *)
Theorem stamp_room_negative_size (W H roomSizeX roomSizeY : Z) (m : Map) (x y : Z) :
  roomSizeX ≤ -2 ∨ roomSizeY ≤ -2 →
  stamp_room W H roomSizeX roomSizeY m x y = Some m.
Proof.
  intros Hneg. unfold stamp_room.
  destruct (Z.le_gt_cases roomSizeX (-2)) as [HX|HX].
  - apply for_range_empty.
    pose proof (Z.quot_le_mono roomSizeX (-2) 2 eq_refl HX) as Hq.
    change (-2 ÷ 2) with (-1) in Hq. lia.
  - assert (HY : roomSizeY ≤ -2) by lia.
    pose proof (Z.quot_le_mono roomSizeY (-2) 2 eq_refl HY) as Hq.
    change (-2 ÷ 2) with (-1) in Hq.
    rewrite (for_range_foldl (λ t _, t)).
    + f_equal. generalize (seqZ (- (roomSizeX ÷ 2))
                             (roomSizeX ÷ 2 + 1 - - (roomSizeX ÷ 2))).
      intros l. by induction l.
    + intros d t _. apply for_range_empty. lia.
Qed.

Lemma stamp_room_negative_size_witness :
  stamp_room 4 3 5 (-2) [[0; 0]; [7]] 0 3 = Some [[0; 0]; [7]].
Proof. apply stamp_room_negative_size. right. lia. Defined.

(** X14. A call of at least one walk of at least one step that starts inside
    the grid returns a map with an occupied cell, and a call adds at most
    [J * I] cells for its steps and, for each of its [J] room decisions, the
    [(2 * (roomSizeX / 2) + 1) * (2 * (roomSizeY / 2) + 1)] cells of a
    room. *)
Theorem drunkAgent_occupied_bounds {rng : Type} {RS : RandomSource rng} (m : Map)
    (W H J I roomSizeX roomSizeY : Z)
    (probGenerateRoom probIncreaseRoom : double)
    (probChangeDirection probIncreaseChange : double)
    (x y : Z) (seed : rng) :
  1 ≤ J → 1 ≤ I → 0 ≤ roomSizeX → 0 ≤ roomSizeY →
  wf_grid W H m → 0 ≤ x < H → 0 ≤ y < W →
  ∃ m' x' y',
    drunkAgent m W H J I roomSizeX roomSizeY probGenerateRoom probIncreaseRoom
      probChangeDirection probIncreaseChange x y seed = Some (m', x', y') ∧
    0 < occupied_count m' ∧
    occupied_count m'
    ≤ occupied_count m + J * I
      + J * ((2 * (roomSizeX ÷ 2) + 1) * (2 * (roomSizeY ÷ 2) + 1)).
Proof.
  intros HJ HI HX HY Hwf Hx Hy.
  destruct (drunkAgent_marks_start m W H J I roomSizeX roomSizeY probGenerateRoom
              probIncreaseRoom probChangeDirection probIncreaseChange
              x y seed HJ HI Hwf Hx Hy) as (m' & x' & y' & Hrun & _ & Hpos).
  exists m', x', y'. split; [done|]. split; [done|].
  apply drunkAgent_occupied_count in Hrun; [done|lia|lia|done|done].
Qed.

Lemma drunkAgent_occupied_bounds_witness :
  ∃ m' x' y',
    drunkAgent (empty_grid 6 5) 6 5 2 3 2 3 Double.lit_0_1 lit_0_05
      Double.lit_0_2 lit_0_03 2 1 [3; 0; 1; 2] = Some (m', x', y') ∧
    0 < occupied_count m' ∧
    occupied_count m'
    ≤ occupied_count (empty_grid 6 5) + 2 * 3
      + 2 * ((2 * (2 ÷ 2) + 1) * (2 * (3 ÷ 2) + 1)).
Proof.
  apply drunkAgent_occupied_bounds; [lia|lia|lia|lia| |lia|lia].
  apply wf_grid_empty; lia.
Defined.

Lemma binary_grid_intro (m : Map) :
  (∀ a b x, get m a b = Some x → x = 0 ∨ x = 1) → binary_grid m.
Proof.
  intros Hcells. unfold binary_grid.
  apply Forall_lookup_2. intros i row Hrow.
  apply Forall_lookup_2. intros k x Hx.
  apply (Hcells (Z.of_nat i) (Z.of_nat k)). unfold get.
  replace ((0 <=? Z.of_nat i) && (0 <=? Z.of_nat k)) with true
    by (symmetry; apply andb_true_iff; split; apply Z.leb_le; lia).
  rewrite !Nat2Z.id, Hrow. done.
Qed.

Lemma grows_binary m m' : grows m m' → binary_grid m → binary_grid m'.
Proof.
  intros Hg Hbin. apply binary_grid_intro. intros a b x Hx.
  destruct (Hg a b) as [Heq|Heq]; rewrite Heq in Hx.
  - by eapply binary_grid_get.
  - injection Hx as <-. by right.
Qed.

(** X15. A call on a map of 0s and 1s returns a map of 0s and 1s of the same
    dimensions: the only value a call writes is 1. *)
Theorem drunkAgent_binary {rng : Type} {RS : RandomSource rng} (m : Map)
    (W H J I roomSizeX roomSizeY : Z)
    (probGenerateRoom probIncreaseRoom : double)
    (probChangeDirection probIncreaseChange : double)
    (x y : Z) (seed : rng) :
  wf_grid W H m → binary_grid m →
  ∃ m' x' y',
    drunkAgent m W H J I roomSizeX roomSizeY probGenerateRoom probIncreaseRoom
      probChangeDirection probIncreaseChange x y seed = Some (m', x', y') ∧
    wf_grid W H m' ∧ binary_grid m'.
Proof.
  intros Hwf Hbin.
  destruct (drunkAgent_inv m W H J I roomSizeX roomSizeY probGenerateRoom
              probIncreaseRoom probChangeDirection probIncreaseChange
              x y seed Hwf) as (m' & x' & y' & Hrun & Hwf' & Hg & _).
  exists m', x', y'. split; [done|]. split; [done|]. by eapply grows_binary.
Qed.

Lemma drunkAgent_binary_witness :
  ∃ m' x' y',
    drunkAgent [[0; 1; 0]; [1; 0; 0]] 3 2 2 3 3 3 Double.lit_0_1 lit_0_05
      Double.lit_0_2 lit_0_03 0 1 [3; 0; 1; 2] = Some (m', x', y') ∧
    wf_grid 3 2 m' ∧ binary_grid m'.
Proof.
  apply drunkAgent_binary.
  - split; [reflexivity|repeat constructor].
  - repeat (constructor; try (by left); try (by right)).
Defined.

(** ** The driver *)

Lemma get_in_range W H m a b x :
  wf_grid W H m → get m a b = Some x → 0 ≤ a < H ∧ 0 ≤ b < W.
Proof.
  intros Hwf. unfold get.
  destruct ((0 <=? a) && (0 <=? b)) eqn:Hab; [|done].
  apply andb_true_iff in Hab as [Ha%Z.leb_le Hb%Z.leb_le].
  destruct (m !! Z.to_nat a) as [row|] eqn:Hrow; [|done]. simpl. intros Hx.
  pose proof (wf_grid_row _ _ _ _ _ Hwf Hrow) as Hlen.
  apply lookup_lt_Some in Hrow, Hx. destruct Hwf as [HH _]. lia.
Qed.

(** A step of the automaton returns a map of 0s and 1s. *)
Lemma cellularAutomata_binary m W H R U :
  0 ≤ W → wf_grid W H m →
  ∃ m', cellularAutomata m W H R U = Some m' ∧ wf_grid W H m' ∧ binary_grid m'.
Proof.
  intros HW Hwf.
  assert (HH : 0 ≤ H) by (destruct Hwf as [<- _]; lia).
  destruct (cellularAutomata_cells W H R U m HW HH Hwf) as (m' & Hrun & Hwf' & Hc).
  exists m'. split; [done|]. split; [done|].
  apply binary_grid_intro. intros a b x Hx.
  destruct (get_in_range _ _ _ _ _ _ Hwf' Hx) as [Ha Hb].
  rewrite Hc in Hx by done. injection Hx as <-. apply land_1_cases.
Qed.

Section driver.
Context {rng : Type} {RS : RandomSource rng}.

(** One iteration: the text of the iteration is appended, and the new map
    is a map of 0s and 1s with its corners occupied. *)
Lemma iteration_body_spec (seeds : Z → rng) iteration st :
  wf_grid mapCols mapRows (myMap st) →
  0 ≤ drunkAgentX st < mapRows → 0 ≤ drunkAgentY st < mapCols →
  ∃ st', iteration_body seeds iteration st = Some st' ∧
         wf_grid mapCols mapRows (myMap st') ∧ binary_grid (myMap st') ∧
         0 ≤ drunkAgentX st' < mapRows ∧ 0 ≤ drunkAgentY st' < mapCols ∧
         corners_occupied (myMap st') ∧
         cout st'
         = printMap (myMap st')
             (cout st +:+ endl +:+ "--- Iteration " +:+ pretty (iteration + 1)
              +:+ " ---" +:+ endl).
Proof.
  intros Hwf Hx Hy. unfold iteration_body.
  destruct (cellularAutomata_binary (myMap st) mapCols mapRows ca_R ca_U)
    as (m1 & Hca & Hwf1 & Hbin1); [done|done|].
  assert (Hcorner : ∀ i j, i = 0 ∨ i = mapRows - 1 → j = 0 ∨ j = mapCols - 1 →
            occupied m1 i j).
  { intros i j Hi Hj.
    destruct (cellularAutomata_cells mapCols mapRows ca_R ca_U (myMap st))
      as (m1' & Hca' & _ & Hc); [done|done|done|].
    rewrite Hca in Hca'. injection Hca' as <-. unfold occupied.
    rewrite Hc by (unfold mapRows, mapCols in *; lia). f_equal.
    by apply cell_out_corner. }
  rewrite Hca. simpl.
  destruct (drunkAgent_inv m1 mapCols mapRows da_J da_I da_roomSizeX da_roomSizeY
              da_probGenerateRoom da_probIncreaseRoom da_probChangeDirection
              da_probIncreaseChange (drunkAgentX st) (drunkAgentY st)
              (seeds iteration) Hwf1)
    as (m2 & x' & y' & -> & Hwf2 & Hg & Hin).
  simpl. eexists. split; [reflexivity|]. simpl.
  split; [done|]. split; [by eapply grows_binary|].
  specialize (Hin (proj2 (in_grid_spec _ _ _ _) (conj Hx Hy))).
  apply in_grid_spec in Hin. split; [tauto|]. split; [tauto|].
  split; [|done].
  repeat split; (eapply grows_occupied; [exact Hg|]); apply Hcorner; auto.
Qed.

End driver.

(** X16. Whatever the map the loop of [main] starts from and whatever the draws,
    as long as the map has the 10 rows of 20 cells and the agent is inside,
    any number [n >= 1] of iterations ends, without an access out of range,
    with a map of 0s and 1s of the same dimensions, the agent inside the
    grid and the four corner cells occupied. *)
Theorem main_loop_invariant {rng : Type} {RS : RandomSource rng}
    (seeds : Z → rng) (n : Z) (st : simulation) :
  1 ≤ n → wf_grid mapCols mapRows (myMap st) →
  0 ≤ drunkAgentX st < mapRows → 0 ≤ drunkAgentY st < mapCols →
  ∃ st', main_loop seeds n st = Some st' ∧
         wf_grid mapCols mapRows (myMap st') ∧ binary_grid (myMap st') ∧
         0 ≤ drunkAgentX st' < mapRows ∧ 0 ≤ drunkAgentY st' < mapCols ∧
         corners_occupied (myMap st').
Proof.
  intros Hn Hwf Hx Hy. unfold main_loop.
  destruct (for_range_inv
    (λ k st', wf_grid mapCols mapRows (myMap st') ∧
              0 ≤ drunkAgentX st' < mapRows ∧ 0 ≤ drunkAgentY st' < mapCols ∧
              (1 ≤ k → binary_grid (myMap st') ∧ corners_occupied (myMap st')))
    0 n (iteration_body seeds) st) as (st' & Hrun & Hwf' & Hx' & Hy' & Hrest).
  - lia.
  - split; [done|]. split; [done|]. split; [done|]. lia.
  - intros k t Hk (Hwft & Hxt & Hyt & _).
    destruct (iteration_body_spec seeds k t Hwft Hxt Hyt)
      as (t' & Hrun & Hwf' & Hbin' & Hx' & Hy' & Hc' & _).
    exists t'. split; [done|]. split; [done|]. split; [done|]. split; [done|].
    done.
  - exists st'. split; [done|]. split; [done|].
    destruct (Hrest Hn) as [Hbin Hc]. done.
Qed.

Lemma main_loop_invariant_witness :
  ∃ st', main_loop (λ i, [i; 2; 7; 0; 1]) 2
           (Simulation "" (replicate 10 (replicate 20 6)) 9 0) = Some st' ∧
         wf_grid mapCols mapRows (myMap st') ∧ binary_grid (myMap st') ∧
         0 ≤ drunkAgentX st' < mapRows ∧ 0 ≤ drunkAgentY st' < mapCols ∧
         corners_occupied (myMap st').
Proof.
  apply main_loop_invariant; [lia| |by vm_compute|by vm_compute].
  split; [reflexivity|]. apply Forall_replicate. reflexivity.
Defined.

(** ** The text that [printMap] writes *)

Lemma length_append (s1 s2 : string) :
  String.length (s1 +:+ s2) = (String.length s1 + String.length s2)%nat.
Proof. induction s1 as [|c s1 IH]; [done|]. simpl. by rewrite IH. Qed.

Lemma print_row_length (row : list Z) (out : string) :
  Forall (λ x, x = 0 ∨ x = 1) row →
  String.length (print_row row out)
  = (String.length out + 2 * length row)%nat.
Proof.
  unfold print_row. revert out.
  induction row as [|x row IH]; intros out Hrow; simpl; [lia|].
  apply Forall_cons in Hrow as [Hx Hrow]. rewrite IH by done.
  rewrite !length_append. destruct Hx as [-> | ->]; simpl; lia.
Qed.

Lemma print_rows_length (W H : Z) (m : Map) (out : string) :
  wf_grid W H m → binary_grid m →
  Z.of_nat (String.length (foldl (λ out row, print_row row out +:+ endl) out m))
  = Z.of_nat (String.length out) + H * (2 * W + 1).
Proof.
  intros [<- Hrows] Hbin. revert out.
  induction m as [|row m IH]; intros out; simpl; [lia|].
  apply Forall_cons in Hrows as [Hrow Hrows].
  apply Forall_cons in Hbin as [Hb Hbin].
  rewrite IH by done. rewrite length_append, print_row_length by done.
  simpl String.length. lia.
Qed.

(** X18. For a map of [H] rows of [W] cells that are all 0 or 1, [printMap]
    appends two lines of 19 characters and, for each row, a line of [2 * W]
    characters: [40 + H * (2 * W + 1)] characters with the line feeds. *)
Theorem printMap_length (W H : Z) (m : Map) (out : string) :
  wf_grid W H m → binary_grid m →
  Z.of_nat (String.length (printMap m out))
  = Z.of_nat (String.length out) + 40 + H * (2 * W + 1).
Proof.
  intros Hwf Hbin. unfold printMap.
  rewrite length_append, Nat2Z.inj_add, (print_rows_length W H) by done.
  rewrite !length_append. simpl String.length. lia.
Qed.

Lemma printMap_length_witness :
  Z.of_nat (String.length (printMap [[0; 1; 1]; [1; 0; 1]] "map:"))
  = Z.of_nat (String.length "map:") + 40 + 2 * (2 * 3 + 1).
Proof.
  apply printMap_length.
  - split; [reflexivity|repeat constructor].
  - repeat (constructor; try (by left); try (by right)).
Defined.

(** X17. [main] ends for every sequence of draws, without an access out of
    range; it returns 0 and has written 2907 characters: a title, the
    initial map and, for each of the five iterations, a heading and a map
    of 10 rows of 20 cells that are all 0 or 1. *)
Theorem main_output {rng : Type} {RS : RandomSource rng} (seeds : Z → rng) :
  ∃ out, main seeds = Some (out, 0) ∧ String.length out = 2907%nat.
Proof.
  unfold main, main_loop.
  set (m0 := replicate (Z.to_nat mapRows) (replicate (Z.to_nat mapCols) 0)).
  set (out0 := printMap m0 _).
  assert (Hlen0 : Z.of_nat (String.length out0) = 523) by (by vm_compute).
  destruct (for_range_inv
    (λ k st, wf_grid mapCols mapRows (myMap st) ∧
             0 ≤ drunkAgentX st < mapRows ∧ 0 ≤ drunkAgentY st < mapCols ∧
             Z.of_nat (String.length (cout st)) = 523 + 471 * k)
    0 numIterations (iteration_body seeds)
    (Simulation out0 m0 (mapRows ÷ 2) (mapCols ÷ 2)))
    as (st & Hrun & _ & _ & _ & Hlen).
  - done.
  - split; [apply (wf_grid_empty mapCols mapRows); done|].
    split; [done|]. split; [done|]. simpl. lia.
  - intros k t Hk (Hwft & Hxt & Hyt & Hlent).
    destruct (iteration_body_spec seeds k t Hwft Hxt Hyt)
      as (t' & Hrun & Hwf' & Hbin' & Hx' & Hy' & _ & Hcout).
    exists t'. split; [done|]. split; [done|]. split; [done|]. split; [done|].
    rewrite Hcout. unfold printMap.
    rewrite length_append, Nat2Z.inj_add, (print_rows_length mapCols mapRows) by done.
    rewrite !length_append.
    assert (Hk' : k = 0 ∨ k = 1 ∨ k = 2 ∨ k = 3 ∨ k = 4)
      by (unfold numIterations in Hk; lia).
    unfold mapRows, mapCols.
    destruct Hk' as [-> | [-> | [-> | [-> | ->]]]]; simpl String.length; lia.
  - rewrite Hrun. simpl. eexists. split; [reflexivity|].
    rewrite !length_append. simpl String.length.
    unfold numIterations in Hlen. lia.
Qed.

(** ** Reading a map back from the text *)

Lemma append_nil_l (s : string) : "" +:+ s = s.
Proof. done. Qed.

Lemma append_cons (c : ascii) (s t : string) : String c s +:+ t = String c (s +:+ t).
Proof. done. Qed.

Lemma append_assoc (s t u : string) : (s +:+ t) +:+ u = s +:+ (t +:+ u).
Proof. induction s as [|c s IH]; [done|]. by rewrite !append_cons, IH. Qed.

Lemma append_inv_head (s t u : string) : s +:+ t = s +:+ u → t = u.
Proof.
  induction s as [|c s IH]; [done|]. rewrite !append_cons. intros [= Heq]. auto.
Qed.

Lemma all_chars_append P s t :
  all_chars P (s +:+ t) = all_chars P s && all_chars P t.
Proof.
  induction s as [|c s IH]; [done|]. rewrite append_cons. simpl.
  by rewrite IH, andb_assoc.
Qed.

(** Two texts without separator, each followed by the separator, are read
    back apart. *)
Lemma append_separator_inj (P : ascii → bool) (sep : ascii) (u v s t : string) :
  P sep = false → all_chars P u = true → all_chars P v = true →
  u +:+ String sep s = v +:+ String sep t → u = v ∧ s = t.
Proof.
  intros Hsep. revert v. induction u as [|c u IH]; intros [|d v] Hu Hv Heq.
  - rewrite !append_nil_l in Heq. by injection Heq as ->.
  - rewrite append_nil_l, append_cons in Heq. injection Heq as <- _.
    simpl in Hv. rewrite Hsep in Hv. done.
  - rewrite append_nil_l, append_cons in Heq. injection Heq as -> _.
    simpl in Hu. rewrite Hsep in Hu. done.
  - rewrite !append_cons in Heq. injection Heq as -> Heq.
    simpl in Hu, Hv. apply andb_true_iff in Hu as [_ Hu].
    apply andb_true_iff in Hv as [_ Hv].
    destruct (IH v Hu Hv Heq) as [-> ->]. done.
Qed.

Lemma pretty_N_char_digit n : is_digit (pretty_N_char n) = true.
Proof. unfold pretty_N_char. by repeat case_match. Qed.

(** The digits of a number are written in front of the text. *)
Lemma pretty_N_go_digits x s :
  ∃ u, pretty_N_go x s = u +:+ s ∧ all_chars is_digit u = true.
Proof.
  revert s. induction (N.lt_wf_0 x) as [x _ IH]. intros s.
  destruct (decide (x = 0%N)) as [->|Hx].
  - exists "". by rewrite pretty_N_go_0.
  - rewrite pretty_N_go_step by lia.
    destruct (IH (x `div` 10)%N ltac:(apply N.div_lt; lia)
                (String (pretty_N_char (x `mod` 10)) s)) as (u & -> & Hu).
    exists (u +:+ String (pretty_N_char (x `mod` 10)) "").
    rewrite append_assoc, append_cons, append_nil_l. split; [done|].
    rewrite all_chars_append, Hu. simpl. by rewrite pretty_N_char_digit.
Qed.

(** The text of a positive number: a digit, then digits. *)
Lemma pretty_positive_digits (p : positive) :
  ∃ c u, pretty p = String c u ∧ is_digit c = true ∧ all_chars is_digit u = true.
Proof.
  unfold pretty, pretty_positive, pretty, pretty_N.
  destruct (decide (N.pos p = 0%N)) as [|_]; [done|].
  rewrite pretty_N_go_step by lia.
  destruct (pretty_N_go_digits (N.pos p `div` 10)
              (String (pretty_N_char (N.pos p `mod` 10)) "")) as (u & -> & Hu).
  destruct u as [|c u].
  - eexists _, _. rewrite append_nil_l. split; [done|].
    by rewrite pretty_N_char_digit.
  - simpl in Hu. apply andb_true_iff in Hu as [Hc Hu].
    eexists _, _. rewrite append_cons. split; [done|]. split; [done|].
    rewrite all_chars_append, Hu. simpl. by rewrite pretty_N_char_digit.
Qed.

Lemma all_chars_digit_cell u :
  all_chars is_digit u = true → all_chars is_cell_char u = true.
Proof.
  induction u as [|c u IH]; [done|]. simpl. intros [Hc Hu]%andb_true_iff.
  apply andb_true_iff. split; [|by apply IH].
  unfold is_cell_char. by rewrite Hc.
Qed.

(** The text of a cell: a digit or a minus sign followed by a digit, then
    digits; no space, no line feed, and never two minus signs. *)
Lemma pretty_Z_text (x : Z) :
  ∃ c u, pretty x = String c u ∧ all_chars is_cell_char (pretty x) = true ∧
         (is_digit c = true ∨
          ∃ d v, c = "-"%char ∧ u = String d v ∧ is_digit d = true).
Proof.
  unfold pretty at 1 2, pretty_Z. destruct x as [|p|p].
  - exists "0"%char, ""%string. split; [done|]. split; [done|]. by left.
  - destruct (pretty_positive_digits p) as (c & u & -> & Hc & Hu).
    exists c, u. split; [done|]. split; [|by left].
    apply (all_chars_digit_cell (String c u)). simpl. by rewrite Hc, Hu.
  - destruct (pretty_positive_digits p) as (c & u & -> & Hc & Hu).
    eexists _, _. rewrite append_cons, append_nil_l. split; [done|]. split.
    + simpl. apply (all_chars_digit_cell (String c u)). simpl. by rewrite Hc, Hu.
    + right. by exists c, u.
Qed.

Lemma print_row_text (row : list Z) (out : string) :
  print_row row out = out +:+ row_text row.
Proof.
  unfold print_row, row_text. revert out.
  induction row as [|x row IH]; intros out; simpl.
  - induction out as [|c out IHo]; [done|]. by rewrite append_cons, <- IHo.
  - rewrite IH. by rewrite !append_assoc.
Qed.

Lemma print_rows_text (m : Map) (out : string) :
  foldl (λ out row, print_row row out +:+ endl) out m = out +:+ rows_text m.
Proof.
  unfold rows_text. revert out. induction m as [|row m IH]; intros out; simpl.
  - induction out as [|c out IHo]; [done|]. by rewrite append_cons, <- IHo.
  - rewrite IH, print_row_text. by rewrite !append_assoc.
Qed.

(** [printMap] appends to the text written so far, and what it appends does
    not depend on that text. *)
Lemma printMap_text (m : Map) (out : string) :
  printMap m out
  = out +:+ "--- Current Map ---" +:+ endl +:+ rows_text m
    +:+ "-------------------" +:+ endl.
Proof. unfold printMap. rewrite print_rows_text. by rewrite !append_assoc. Qed.

Lemma row_text_inj (r1 r2 : list Z) (s t : string) :
  row_text r1 +:+ endl +:+ s = row_text r2 +:+ endl +:+ t → r1 = r2 ∧ s = t.
Proof.
  revert r2. induction r1 as [|x r1 IH]; intros [|y r2]; unfold row_text; simpl.
  - rewrite !append_nil_l. unfold endl. rewrite !append_cons, !append_nil_l.
    by intros [= ->].
  - destruct (pretty_Z_text y) as (c & u & Hy & Hall & _).
    rewrite Hy in Hall |- *. unfold endl.
    rewrite !append_nil_l, !append_cons, append_nil_l. intros [= <- _].
    simpl in Hall. done.
  - destruct (pretty_Z_text x) as (c & u & Hx & Hall & _).
    rewrite Hx in Hall |- *. unfold endl.
    rewrite !append_nil_l, !append_cons, append_nil_l. intros [= -> _].
    simpl in Hall. done.
  - fold (row_text r1). fold (row_text r2).
    rewrite !append_assoc. change (" " +:+ ?a) with (String " " a).
    intros Heq.
    destruct (pretty_Z_text x) as (_ & _ & _ & Hx & _).
    destruct (pretty_Z_text y) as (_ & _ & _ & Hy & _).
    apply (append_separator_inj is_cell_char) in Heq as [Hxy Heq]; [|done..].
    apply (inj pretty) in Hxy as ->.
    destruct (IH r2 Heq) as [-> ->]. done.
Qed.

Lemma rows_text_inj (m1 m2 : Map) :
  rows_text m1 +:+ "-------------------" +:+ endl
  = rows_text m2 +:+ "-------------------" +:+ endl →
  m1 = m2.
Proof.
  assert (Hfooter : ∀ (row : list Z) (s : string),
    "-------------------" +:+ endl ≠ row_text row +:+ endl +:+ s).
  { intros [|x row] s; unfold row_text, endl; simpl.
    - rewrite !append_nil_l, !append_cons. done.
    - destruct (pretty_Z_text x) as (c & u & -> & _ & [Hc | (d & v & -> & -> & Hd)]).
      + rewrite !append_cons. intros [= <- _]. done.
      + rewrite !append_cons. intros [= <- _]. done. }
  revert m2. induction m1 as [|r1 m1 IH]; intros [|r2 m2]; unfold rows_text; simpl.
  - done.
  - fold (rows_text m2). rewrite append_nil_l, !append_assoc. intros Heq.
    by destruct (Hfooter r2 _ Heq).
  - fold (rows_text m1). rewrite append_nil_l, !append_assoc. intros Heq.
    symmetry in Heq. by destruct (Hfooter r1 _ Heq).
  - fold (rows_text m1). fold (rows_text m2). rewrite !append_assoc.
    intros Heq. apply row_text_inj in Heq as [-> Heq].
    f_equal. by apply IH.
Qed.

(** X19. The text that [printMap] writes determines the map, whatever integers
    the cells hold: two maps printed alike after the same text are equal. *)
Theorem printMap_inj (m1 m2 : Map) (out : string) :
  printMap m1 out = printMap m2 out → m1 = m2.
Proof.
  rewrite !printMap_text. intros Heq.
  apply append_inv_head, append_inv_head, append_inv_head in Heq.
  by apply rows_text_inj.
Qed.

Lemma printMap_inj_witness :
  [[0; -12]; []; [3]] = [[0; -12]; []; [3]].
Proof.
  apply (printMap_inj [[0; -12]; []; [3]] [[0; -12]; []; [3]] "map:"). reflexivity.
Defined.
